(** * SorryDB LLM client: tactic splitter, proof verifier, orchestrator

    A shallow embedding of [src/sorrydb/llm_client/llm_client.py]
    (class [LLMClient]) and the properties of its three layers:

    - [_split_proof]: the pure, indentation-driven tactic splitter;
    - [_check_proof]: the step-by-step verifier driving the Lean REPL;
    - [solve_sorry_db]: the loop over repositories, commits and sorries.

    Python strings are sequences of Unicode code points; exceptions are an
    explicit error result; the REPL, the language model and the file system
    are collaborators whose code lives outside this module and are taken as
    parameters of the development. *)

From Stdlib Require Import Ascii DecimalString QArith Lqa.
From stdpp Require Import base numbers list option strings gmap sorting.

(** ** Python strings *)

Module PyStr.

(** A Python [str]: a sequence of code points. *)
Definition str := list N.

(** A literal (ASCII) string as a [str]. *)
Definition py (s : string) : str :=
  (λ a, N_of_ascii a) <$> String.list_ascii_of_string s.

Definition newline : N := 10%N.
Definition semicolon : N := 59%N.

(** [str.isspace] on one code point: the white-space set used by
    [str.strip] and [str.lstrip] when called without argument. *)
Definition isspace (c : N) : bool :=
  (((9 <=? c) && (c <=? 13)) || ((28 <=? c) && (c <=? 32))
   || (c =? 133) || (c =? 160) || (c =? 5760)
   || ((8192 <=? c) && (c <=? 8202))
   || (c =? 8232) || (c =? 8233) || (c =? 8239) || (c =? 8287)
   || (c =? 12288))%N.

(** [s.lstrip()] *)
Fixpoint lstrip (s : str) : str :=
  match s with
  | [] => []
  | c :: s' => if isspace c then lstrip s' else s
  end.

(** [s.rstrip()] *)
Definition rstrip (s : str) : str := rev (lstrip (rev s)).

(** [s.strip()] *)
Definition strip (s : str) : str := rstrip (lstrip s).

(** [s.split("\n")]: never the empty list. *)
Fixpoint split_nl (s : str) : list str :=
  match s with
  | [] => [[]]
  | c :: s' =>
      if (c =? newline)%N then [] :: split_nl s'
      else match split_nl s' with
           | l :: ls => (c :: l) :: ls
           | [] => [[c]]
           end
  end.

(** ["\n".join(ls)] *)
Fixpoint join_nl (ls : list str) : str :=
  match ls with
  | [] => []
  | [l] => l
  | l :: ls' => l ++ newline :: join_nl ls'
  end.

(** A text given line by line: its lines joined by newlines. *)
Definition text (lines : list string) : str := join_nl (py <$> lines).

(** [s.endswith(";")] *)
Definition endswith_semicolon (s : str) : bool :=
  match rev s with
  | c :: _ => (c =? semicolon)%N
  | [] => false
  end.

(** [len(s) - len(s.lstrip())] *)
Definition indent (s : str) : nat := length s - length (lstrip s).

(** [not s.strip()] *)
Definition is_blank (s : str) : bool := bool_decide (strip s = []).

End PyStr.
Export PyStr.

(** ** Exceptions and results *)

(** The exceptions the modelled code can raise.  [ExternalError] stands for
    whatever an external collaborator (language model provider, file system,
    repository preparation, REPL process) raises. *)
Inductive exn : Type :=
  | IndexError
  | KeyError (key : string)
  | AttributeError (name : string)
  | ExternalError (what : string).

Inductive result (A : Type) : Type :=
  | Ok (a : A)
  | Raise (e : exn).
Arguments Ok {A} a.
Arguments Raise {A} e.

#[global] Instance result_ret : MRet result := λ A a, Ok a.
#[global] Instance result_bind : MBind result :=
  λ A B f m, match m with Ok a => f a | Raise e => Raise e end.

#[global] Instance exn_eq_dec : EqDecision exn.
Proof. solve_decision. Defined.
#[global] Instance result_eq_dec `{EqDecision A} : EqDecision (result A).
Proof. solve_decision. Defined.

(** [l[0]] *)
Definition index0 {A} (l : list A) : result A :=
  match l with
  | [] => Raise IndexError
  | x :: _ => Ok x
  end.

(** ** The tactic splitter: [LLMClient._split_proof] *)

Module Splitter.

Definition by_token : str := py "by".

(** [line = line[base_indent:]], then
    [if line.endswith(";"): line = line[:-1]]. *)
Definition strip_base (base_indent : nat) (line : str) : str :=
  drop base_indent line.

Definition strip_terminator (line : str) : str :=
  if endswith_semicolon line then removelast line else line.

Definition normalize_line (base_indent : nat) (line : str) : str :=
  strip_terminator (strip_base base_indent line).

(** [tactics[-1] += "\n" + line] *)
Fixpoint append_to_last (tactics : list str) (line : str)
  : result (list str) :=
  match tactics with
  | [] => Raise IndexError
  | [t] => Ok [t ++ newline :: line]
  | t :: ts => ts' ← append_to_last ts line; Ok (t :: ts')
  end.

(** The body of [for line in lines: ...], threading [tactics]. *)
Fixpoint split_loop (base_indent : nat) (lines : list str)
    (tactics : list str) : result (list str) :=
  match lines with
  | [] => Ok tactics
  | line :: rest =>
      if is_blank line then split_loop base_indent rest tactics
      else
        let line := normalize_line base_indent line in
        if decide (indent line = 0)
        then split_loop base_indent rest (tactics ++ [line])
        else tactics' ← append_to_last tactics line;
             split_loop base_indent rest tactics'
  end.

(** [if lines[0].strip() == "by": lines = lines[1:]] *)
Definition drop_introducer (lines : list str) : result (list str) :=
  first ← index0 lines;
  Ok (if decide (strip first = by_token) then drop 1 lines else lines).

(** [base_indent = len(lines[0]) - len(lines[0].lstrip())] followed by the
    loop. *)
Definition split_lines (lines : list str) : result (list str) :=
  first ← index0 lines;
  split_loop (indent first) lines [].

Definition split_proof (proof : str) : result (list str) :=
  lines ← drop_introducer (split_nl proof);
  split_lines lines.

End Splitter.
Export Splitter.

(** ** State and exceptions *)

(** A computation over a mutable state [S] that returns or raises; the state
    reached is kept in both cases. *)
Definition M (S A : Type) : Type := S → result A * S.

#[global] Instance M_ret {S} : MRet (M S) := λ A a s, (Ok a, s).
#[global] Instance M_bind {S} : MBind (M S) := λ A B f m s,
  match m s with
  | (Ok a, s') => f a s'
  | (Raise e, s') => (Raise e, s')
  end.

(** A pure, possibly raising, step. *)
Definition lift {S A} (r : result A) : M S A := λ s, (r, s).

(** [for x in l: b = f(x, b)] *)
Fixpoint for_each {S A B} (f : A → B → M S B) (l : list A) (b : B) : M S B :=
  match l with
  | [] => mret b
  | x :: l' => b' ← f x b; for_each f l' b'
  end.

(** [d[key]] on a dictionary field that may be absent. *)
Definition lookup_key {A} (key : string) (field : option A) : result A :=
  match field with
  | Some v => Ok v
  | None => Raise (KeyError key)
  end.

(** ** The REPL protocol, as the client uses it

    [LeanRepl.send_command] takes a dictionary and returns the decoded reply
    dictionary.  Two request shapes are sent: [{"cmd": file_text}] and
    [{"tactic": tactic, "proofState": proof_state}]. *)

Module Repl.

Inductive command : Type :=
  | Cmd (cmd : str)
  | Tactic (tactic : str) (proofState : Z).

Record message : Type := { severity : str; data : str }.

(** One element of [reply["sorries"]]: [s["pos"]["line"]],
    [s["pos"]["column"]], [s["proofState"]]. *)
Record sorry_entry : Type :=
  { pos_line : Z; pos_column : Z; sorry_proofState : Z }.

(** A reply dictionary: each key may be absent. *)
Record reply : Type :=
  { sorries : option (list sorry_entry);
    messages : option (list message);
    proofState : option Z;
    goals : option (list str) }.

(** A live REPL together with the requests submitted to it so far. *)
Record session (R : Type) : Type :=
  { repl : R; exchanges : list command }.
Arguments repl {R} _.
Arguments exchanges {R} _.

End Repl.
Export Repl.

(** ** The verifier: [LLMClient._check_proof] *)

Module Verifier.
Section verifier.

Context {R : Type}.
(** [self.repl.send_command] *)
Variable send_command : command → R → result reply * R.

Definition exchange (c : command) : M (session R) reply := λ s,
  let '(r, repl') := send_command c (repl s) in
  (r, {| repl := repl'; exchanges := exchanges s ++ [c] |}).

(** The [for s in reply["sorries"]: if ...: sorry = s; break] search. *)
Definition find_sorry (line column : Z) (l : list sorry_entry)
  : option sorry_entry :=
  List.find (λ s, bool_decide (pos_line s = line ∧ pos_column s = column)) l.

(** The scan of [reply.get("messages", [])] for an ["error"] severity. *)
Definition has_error (r : reply) : bool :=
  existsb (λ m, bool_decide (severity m = py "error"))
          (default [] (messages r)).

(** How the [for tactic in proof] loop ends: by [return None] inside the
    loop, or by running out of tactics with the last reply bound to [reply]
    and the tactics applied so far in [complete_proof]. *)
Inductive stepping : Type :=
  | ReturnNone
  | Exhausted (reply : reply) (complete_proof : list str).

Fixpoint apply_tactics (proof : list str) (proof_state : Z) (reply0 : reply)
    (complete_proof : list str) : M (session R) stepping :=
  match proof with
  | [] => mret (Exhausted reply0 complete_proof)
  | tactic :: rest =>
      reply ← exchange (Tactic tactic proof_state);
      if has_error reply then mret ReturnNone
      else match proofState reply with
           | None => mret ReturnNone
           | Some proof_state' =>
               apply_tactics rest proof_state' reply (complete_proof ++ [tactic])
           end
  end.

Definition check_proof (file_text : str) (line column : Z) (proof : list str)
  : M (session R) (option str) :=
  reply ← exchange (Cmd file_text);
  found ← lift (lookup_key "sorries" (sorries reply));
  match find_sorry line column found with
  | None => mret None
  | Some sorry =>
      end_of_loop ← apply_tactics proof (sorry_proofState sorry) reply [];
      match end_of_loop with
      | ReturnNone => mret None
      | Exhausted reply complete_proof =>
          remaining ← lift (lookup_key "goals" (goals reply));
          if decide (remaining = [])
          then mret (Some (join_nl complete_proof))
          else mret None
      end
  end.

End verifier.
End Verifier.
Export Verifier.

(** ** The sorry database *)

Module SorryDB.

(** One sorry: [s["uuid"]], [s["goal"]["type"]], [s["goal"]["parentType"]],
    [s["location"]["file"]], [...["startLine"]], [...["startColumn"]]. *)
Record sorry_record : Type :=
  { uuid : str;
    goal_type : str;
    parentType : str;
    loc_file : str;
    startLine : Z;
    startColumn : Z }.

Record commit : Type :=
  { branch : str; sha : str; lean_version : str;
    commit_sorries : list sorry_record }.

Record repo : Type := { remote_url : str; commits : list commit }.

#[global] Instance sorry_record_eq_dec : EqDecision sorry_record.
Proof. solve_decision. Defined.

(** [sorry_db["repos"]] flattened: every sorry of every commit. *)
Definition all_sorries (repos : list repo) : list sorry_record :=
  r ← repos; c ← commits r; commit_sorries c.

End SorryDB.
Export SorryDB.

(** ** The client: [LLMClient._invoke_model], [_solve_sorry], [solve_sorry_db] *)

Module Client.

(** What [self.model.invoke] returns: [response.content] and the two counts
    of [response.response_metadata["usage"]].  The counts are whatever
    numbers the provider reports; the code adds them unchecked, so they are
    rationals here, negative and fractional values included. *)
Record model_response : Type :=
  { content : str; input_tokens : Q; output_tokens : Q }.

(** The client object and what it acts on: the outside world [X] (model
    provider, file system, checked-out repository), [self.token_usage],
    [self.repl], the contents of the [out_json] file (absent until first
    written), and, for the statements below, the sorries for which the
    generator has been called, in call order. *)
Record state (X R : Type) : Type :=
  { world : X;
    token_usage : Q * Q;
    client_repl : option (session R);
    out_json : option (gmap str (option str));
    generator_calls : list sorry_record }.
Arguments world {X R} _.
Arguments token_usage {X R} _.
Arguments client_repl {X R} _.
Arguments out_json {X R} _.
Arguments generator_calls {X R} _.

Section client.

Context {X R : Type}.
(** [self.model.invoke([HumanMessage(content=prompt)])] *)
Variable invoke : str → X → result model_response * X.
(** [prepare_repository], [build_lean_project], [setup_repl] and
    [LeanRepl(...)]: a fresh REPL for the prepared repository. *)
Variable prepare : str → str → str → str → X → result R * X.
(** [Path(self.repo_path, file).read_text()] *)
Variable read_text : str → X → result str.
(** [self.repl.send_command] *)
Variable send_command : command → R → result reply * R.
(** [PROMPT.format(goal=..., file_text=..., line=..., column=...)] *)
Variable format_prompt : str → str → Z → Z → str.

Definition set_world (w : X) (st : state X R) : state X R :=
  {| world := w; token_usage := token_usage st; client_repl := client_repl st;
     out_json := out_json st; generator_calls := generator_calls st |}.

Definition set_token_usage (u : Q * Q) (st : state X R) : state X R :=
  {| world := world st; token_usage := u; client_repl := client_repl st;
     out_json := out_json st; generator_calls := generator_calls st |}.

Definition set_client_repl (r : option (session R)) (st : state X R) : state X R :=
  {| world := world st; token_usage := token_usage st; client_repl := r;
     out_json := out_json st; generator_calls := generator_calls st |}.

Definition set_out_json (j : option (gmap str (option str))) (st : state X R)
  : state X R :=
  {| world := world st; token_usage := token_usage st;
     client_repl := client_repl st; out_json := j;
     generator_calls := generator_calls st |}.

Definition note_generator_call (s : sorry_record) : M (state X R) () := λ st,
  (Ok (),
   {| world := world st; token_usage := token_usage st;
      client_repl := client_repl st; out_json := out_json st;
      generator_calls := generator_calls st ++ [s] |}).

(** [_invoke_model] *)
Definition invoke_model (prompt : str) : M (state X R) str := λ st,
  match invoke prompt (world st) with
  | (Ok response, w) =>
      let usage := token_usage st in
      (Ok (content response),
       set_token_usage ((usage.1 + input_tokens response)%Q,
                        (usage.2 + output_tokens response)%Q)
                       (set_world w st))
  | (Raise e, w) => (Raise e, set_world w st)
  end.

(** [_setup_repo] *)
Definition setup_repo (remote_url branch sha lean_version : str)
  : M (state X R) () := λ st,
  match prepare remote_url branch sha lean_version (world st) with
  | (Ok r, w) =>
      (Ok (), set_client_repl (Some {| repl := r; exchanges := [] |})
                              (set_world w st))
  | (Raise e, w) => (Raise e, set_world w st)
  end.

(** A step on [self.repl]. *)
Definition with_repl {A} (m : M (session R) A) : M (state X R) A := λ st,
  match client_repl st with
  | None => (Raise (AttributeError "repl"), st)
  | Some s => let '(r, s') := m s in (r, set_client_repl (Some s') st)
  end.

(** [_solve_sorry] *)
Definition solve_sorry (sorry_config : sorry_record) : M (state X R) (option str) :=
  file_text ← (λ st, (read_text (loc_file sorry_config) (world st), st));
  let prompt := format_prompt (goal_type sorry_config) file_text
                  (startLine sorry_config) (startColumn sorry_config) in
  _ ← note_generator_call sorry_config;
  proof ← invoke_model prompt;
  proof ← lift (split_proof proof);
  with_repl (check_proof send_command file_text
               (startLine sorry_config) (startColumn sorry_config) proof).

(** [with open(out_json, "w") as f: json.dump(llm_proofs, f)] *)
Definition dump (llm_proofs : gmap str (option str)) : M (state X R) () := λ st,
  (Ok (), set_out_json (Some llm_proofs) st).

(** The body of [for sorry in sorries]. *)
Definition attempt (sorry : sorry_record) (llm_proofs : gmap str (option str))
  : M (state X R) (gmap str (option str)) :=
  outcome ← solve_sorry sorry;
  let llm_proofs := <[uuid sorry := outcome]> llm_proofs in
  _ ← dump llm_proofs;
  mret llm_proofs.

Definition is_prop (s : sorry_record) : Prop := parentType s = py "Prop".

(** The body of [for commit in repo["commits"]]. *)
Definition solve_commit (remote_url : str) (c : commit)
    (llm_proofs : gmap str (option str)) : M (state X R) (gmap str (option str)) :=
  let sorries := filter is_prop (commit_sorries c) in
  if decide (sorries = []) then mret llm_proofs
  else
    _ ← setup_repo remote_url (branch c) (sha c) (lean_version c);
    for_each attempt sorries llm_proofs.

(** The body of [for i_repo, repo in enumerate(sorry_db["repos"])]. *)
Definition solve_repo (r : repo) (llm_proofs : gmap str (option str))
  : M (state X R) (gmap str (option str)) :=
  for_each (solve_commit (remote_url r)) (commits r) llm_proofs.

(** [solve_sorry_db], from the decoded database on. *)
Definition solve_sorry_db (repos : list repo) : M (state X R) () :=
  _ ← for_each solve_repo repos ∅;
  mret ().

End client.
End Client.
Export Client.

(** ** Discovery of sorries in a file: [process_file_content] of
    [find_sorries.py] *)

Module FindSorries.

(** The line boundaries of [str.splitlines]: the code points 10 to 13
    (line feed, vertical tab, form feed, carriage return), 28 to 30 (file,
    group and record separator), 133 (next line), 8232 (line separator) and
    8233 (paragraph separator). *)
Definition is_linebreak (c : N) : bool :=
  (((10 <=? c) && (c <=? 13)) || ((28 <=? c) && (c <=? 30))
   || (c =? 133) || (c =? 8232) || (c =? 8233))%N.

(** [s.splitlines()], with [cur] the line being read: a line ends at a line
    boundary ([\r\n] counting as one); what follows the last boundary is a
    line only if it is not empty. *)
Fixpoint splitlines_from (cur : str) (s : str) : list str :=
  match s with
  | [] => if decide (cur = []) then [] else [cur]
  | c :: s' =>
      if is_linebreak c then
        cur :: match s' with
               | c' :: s'' =>
                   if ((c =? 13) && (c' =? 10))%N
                   then splitlines_from [] s''
                   else splitlines_from [] s'
               | [] => []
               end
      else splitlines_from (cur ++ [c]) s'
  end.

Definition splitlines (s : str) : list str := splitlines_from [] s.

(** [s.split()], with [cur] the word being read: the maximal runs of
    characters that are not white space. *)
Fixpoint split_from (cur : str) (s : str) : list str :=
  match s with
  | [] => if decide (cur = []) then [] else [cur]
  | c :: s' =>
      if isspace c then
        if decide (cur = []) then split_from [] s'
        else cur :: split_from [] s'
      else split_from (cur ++ [c]) s'
  end.

Definition split (s : str) : list str := split_from [] s.

(** [s.startswith(prefix)] *)
Definition startswith (prefix s : str) : bool :=
  bool_decide (take (length prefix) s = prefix).

(** The body of [for i, line in enumerate(lines)], from index [i] on. *)
Fixpoint scan_lines (i : nat) (lines : list str) (sorry_lines : list nat)
  : list nat :=
  match lines with
  | [] => sorry_lines
  | line :: rest =>
      let line := strip line in
      if startswith (py "--") line || startswith (py "/--") line
      then scan_lines (S i) rest sorry_lines
      else
        let parts := split line in
        if bool_decide (py "sorry" ∈ parts)
        then scan_lines (S i) rest (sorry_lines ++ [i + 1])
        else scan_lines (S i) rest sorry_lines
  end.

Definition process_file_content (content : str) : list nat :=
  scan_lines 0 (splitlines content) [].

End FindSorries.

(** ** Discovery of sorries in a repository: [get_affected_files] and
    [process_repository] of [find_sorries.py]

    The functions that talk to the hosting provider
    ([get_recent_commits], [get_file_content_at_ref],
    [get_line_blame_info], and the commit request of
    [get_affected_files]) are parameters: each takes the state [W] of the
    outside world and returns or raises.  A Python [dict] is the list of
    its items in insertion order. *)

Module Discovery.

(** One value of the dictionary [get_recent_commits] returns:
    [{"commits": [...], "head_date": ...}]. *)
Record branch_entry : Type := { commits : list str; head_date : str }.

(** What [get_line_blame_info] returns when it finds the line. *)
Record blame_info : Type :=
  { author : str; email : str; date : str; message : str }.

(** One element of the list [process_repository] returns. *)
Record found_sorry : Type :=
  { repository : str;
    branch : str;
    head_sha : str;
    found_head_date : str;
    file_path : str;
    github_url : str;
    line_number : nat;
    blame : blame_info }.

(** [d[key]] *)
Fixpoint dict_get {V} (key : str) (d : list (str * V)) : result V :=
  match d with
  | [] => Raise (KeyError "key")
  | (k, v) :: d' => if decide (k = key) then Ok v else dict_get key d'
  end.

(** [d[key] = v] *)
Fixpoint dict_set {V} (key : str) (v : V) (d : list (str * V))
  : list (str * V) :=
  match d with
  | [] => [(key, v)]
  | (k, v') :: d' =>
      if decide (k = key) then (k, v) :: d' else (k, v') :: dict_set key v d'
  end.

(** [s.endswith(suffix)] *)
Definition endswith (suffix s : str) : bool :=
  bool_decide (drop (length s - length suffix) s = suffix
               ∧ length suffix ≤ length s).

(** [str(n)] for a non-negative [int]. *)
Definition str_of_nat (n : nat) : str :=
  py (DecimalString.NilZero.string_of_uint (Nat.to_uint n)).

(** [f"https://github.com/{repo}/blob/{head_sha}/{file_path}#L{line_number}"] *)
Definition github_url_of (repo head_sha file_path : str) (line_number : nat)
  : str :=
  py "https://github.com/" ++ repo ++ py "/blob/" ++ head_sha ++ py "/"
  ++ file_path ++ py "#L" ++ str_of_nat line_number.

(** [try: body  except Exception: continue]: the state reached when the
    exception was raised is kept. *)
Definition try_except {S} (body : M S ()) : M S () := λ s,
  match body s with
  | (Ok tt, s') => (Ok tt, s')
  | (Raise _, s') => (Ok tt, s')
  end.

Section get_affected_files.

Context {W : Type}.
(** [session.get(".../commits/{commit_sha}")], [raise_for_status()] and
    [response.json()["files"]]; an element is [file_info["filename"]], or
    [None] where that key is missing. *)
Variable get_commit_files : str → str → W → result (list (option str)) * W.
(** [list(affected_files)]: the elements of the set in the order Python
    iterates them. *)
Variable list_of_set : gset str → list str.

(** The state of one branch's inner loops: the session and
    [affected_files]. *)
Definition add_file (file_info : option str) (_ : ())
  : M (W * gset str) () := λ st,
  match file_info with
  | None => (Raise (KeyError "filename"), st)
  | Some filename =>
      if endswith (py ".lean") filename
      then (Ok (), (st.1, {[filename]} ∪ st.2))
      else (Ok (), st)
  end.

(** The body of [for commit_sha in commits["commits"]]. *)
Definition add_commit (repo commit_sha : str) (_ : ())
  : M (W * gset str) () :=
  try_except
    (files ← (λ st, let '(r, w) := get_commit_files repo commit_sha st.1 in
                    (r, (w, st.2)));
     for_each add_file files ()).

(** The body of [for branch, commits in branch_commits.items()]. *)
Definition add_branch (repo : str) (item : str * branch_entry)
    (branch_files : list (str * list str))
  : M W (list (str * list str)) := λ w,
  let '(_, (w', affected_files)) :=
    for_each (add_commit repo) (commits item.2) () (w, ∅) in
  if decide (affected_files = ∅) then (Ok branch_files, w')
  else (Ok (dict_set item.1 (list_of_set affected_files) branch_files), w').

Definition get_affected_files (repo : str)
    (branch_commits : list (str * branch_entry))
  : M W (list (str * list str)) :=
  for_each (add_branch repo) branch_commits [].

End get_affected_files.

Section process_repository.

Context {W : Type}.
(** [get_recent_commits(repo, session, cutoff_date)] *)
Variable get_recent_commits :
  str → W → result (list (str * branch_entry)) * W.
Variable get_commit_files : str → str → W → result (list (option str)) * W.
Variable list_of_set : gset str → list str.
(** [get_file_content_at_ref(repo, path, ref, session)] *)
Variable get_file_content_at_ref :
  str → str → str → W → result (option str) * W.
(** [get_line_blame_info(repo, path, line_number, session)] *)
Variable get_line_blame_info :
  str → str → nat → W → result (option blame_info) * W.
(** [datetime.fromisoformat(date.replace("Z", "+00:00")) < cutoff_date] *)
Variable before_cutoff : str → result bool.

(** The session and the list [results], which is appended to in place. *)
Record run : Type := { session : W; results : list found_sorry }.

Definition on_session {A} (call : W → result A * W) : M run A := λ st,
  let '(r, w) := call (session st) in
  (r, {| session := w; results := results st |}).

Definition append_result (r : found_sorry) : M run () := λ st,
  (Ok (), {| session := session st; results := results st ++ [r] |}).

(** The body of [for line_number in sorry_lines]. *)
Definition process_line (repo branch head_sha head_date file_path : str)
    (line_number : nat) (_ : ()) : M run () :=
  blame_info ← on_session (get_line_blame_info repo file_path line_number);
  match blame_info with
  | None => mret ()
  | Some blame_info =>
      old ← lift (before_cutoff (date blame_info));
      if (old : bool) then mret ()
      else append_result
             {| repository := repo; branch := branch; head_sha := head_sha;
                found_head_date := head_date; file_path := file_path;
                github_url := github_url_of repo head_sha file_path line_number;
                line_number := line_number; blame := blame_info |}
  end.

(** The body of [for file_path in files]. *)
Definition process_file (repo branch head_sha head_date file_path : str)
    (_ : ()) : M run () :=
  try_except
    (content ← on_session (get_file_content_at_ref repo file_path head_sha);
     match content with
     | None => mret ()
     | Some content =>
         if decide (content = []) then mret ()
         else for_each
                (process_line repo branch head_sha head_date file_path)
                (FindSorries.process_file_content content) ()
     end).

(** The body of [for branch, files in branch_files.items()]. *)
Definition process_branch (repo : str)
    (branch_commits : list (str * branch_entry))
    (item : str * list str) (_ : ()) : M run () :=
  entry ← lift (dict_get item.1 branch_commits);
  head_sha ← lift (index0 (commits entry));
  for_each (process_file repo item.1 head_sha (head_date entry)) item.2 ().

Definition process_repository (repo : str) (w : W)
  : list found_sorry * W :=
  let '(_, st) :=
    try_except
      (branch_commits ← on_session (get_recent_commits repo);
       if decide (branch_commits = []) then mret ()
       else
         branch_files ←
           on_session (get_affected_files get_commit_files list_of_set
                         repo branch_commits);
         if decide (branch_files = []) then mret ()
         else for_each (process_branch repo branch_commits) branch_files ())
      {| session := w; results := [] |} in
  (results st, session st).

End process_repository.

Arguments session {W} _.
Arguments results {W} _.

End Discovery.

(** ** Vocabulary of the statements *)

(** The lines of a list of (possibly multi-line) entries. *)
Definition entry_lines (ts : list str) : list str := concat (split_nl <$> ts).

(** The shape of an entry built by the loop: a first line without
    indentation followed by indented continuation lines. *)
Definition tactic_shape (t : str) : Prop :=
  match split_nl t with
  | head :: conts => indent head = 0 ∧ Forall (λ c, indent c ≠ 0) conts
  | [] => False
  end.

(** The terminator-stripping normalization of an entry: one trailing [;]
    removed from each of its lines. *)
Definition strip_terminators (t : str) : str :=
  join_nl (strip_terminator <$> split_nl t).

(** An output that a second pass reads entry by entry: no line of any entry
    is blank, and the very first line, stripped of surrounding white space,
    is not the block introducer. *)
Definition resplittable (ts : list str) : bool :=
  forallb (λ l, negb (is_blank l)) (entry_lines ts)
  && negb (bool_decide (strip (default [] (head (entry_lines ts))) = by_token)).

(** No line of any entry ends with the terminator. *)
Definition terminator_free (ts : list str) : bool :=
  forallb (λ l, negb (endswith_semicolon l)) (entry_lines ts).

(** The first line of a list of lines that is not the empty string. *)
Definition first_nonempty_line (lines : list str) : option str :=
  List.find (λ l, negb (bool_decide (l = []))) lines.

(** The indentation of the first line of [lines] that is not blank. *)
Definition first_nonblank_indent (lines : list str) : option nat :=
  indent <$> List.find (λ l, negb (is_blank l)) lines.

(** [steps send r ps rep tactics r' ps' rep']: from REPL state [r] with
    proof-state handle [ps] (and [rep] the reply received last), every
    tactic of [tactics], submitted in order with the handle current at that
    point, gets a reply without error diagnostic that carries a new handle;
    this ends in REPL state [r'] with handle [ps'] and last reply [rep']. *)
Inductive steps {R} (send_command : command → R → result reply * R)
  : R → Z → reply → list str → R → Z → reply → Prop :=
  | steps_nil r ps rep : steps send_command r ps rep [] r ps rep
  | steps_cons r ps rep tactic rest rep1 r1 ps1 r' ps' rep' :
      send_command (Tactic tactic ps) r = (Ok rep1, r1) →
      has_error rep1 = false →
      proofState rep1 = Some ps1 →
      steps send_command r1 ps1 rep1 rest r' ps' rep' →
      steps send_command r ps rep (tactic :: rest) r' ps' rep'.

(** A REPL that answers from a fixed script of replies, whatever it is
    sent, and fails once the script is used up. *)
Definition scripted (c : command) (script : list reply)
  : result reply * list reply :=
  match script with
  | rep :: script' => (Ok rep, script')
  | [] => (Raise (ExternalError "repl"), [])
  end.

Definition load_reply (found : list sorry_entry) : reply :=
  {| sorries := Some found; messages := None; proofState := None;
     goals := None |}.

Definition tactic_reply (msgs : option (list message)) (ps : option Z)
    (gs : option (list str)) : reply :=
  {| sorries := None; messages := msgs; proofState := ps; goals := gs |}.

(** The prompt [_solve_sorry] renders for a sorry. *)
Definition prompt_for (format_prompt : str → str → Z → Z → str)
    (s : sorry_record) (file_text : str) : str :=
  format_prompt (goal_type s) file_text (startLine s) (startColumn s).

(** Every key of the map is the identifier of an allowed sorry. *)
Definition keys_of (allowed : sorry_record → Prop)
    (m : gmap str (option str)) : Prop :=
  ∀ u, is_Some (m !! u) → ∃ s, allowed s ∧ uuid s = u.

(** Since [st0], the generator was called for allowed sorries only, and the
    output file is as it was or holds a map with allowed keys only. *)
Definition only_allowed {X R} (allowed : sorry_record → Prop)
    (st0 st : state X R) : Prop :=
  (∃ calls, generator_calls st = generator_calls st0 ++ calls
            ∧ Forall allowed calls)
  ∧ (out_json st = out_json st0
     ∨ ∃ m, out_json st = Some m ∧ keys_of allowed m).

(** Collaborators that answer from fixed scripts. *)
Module Script.

(** The model: the outcomes of its successive calls. *)
Definition invoke (prompt : str) (x : list (result model_response))
  : result model_response * list (result model_response) :=
  match x with
  | outcome :: x' => (outcome, x')
  | [] => (Raise (ExternalError "model"), [])
  end.


(** Every prepared repository gets a REPL with the same script. *)
Definition prepare {X} (script : list reply) (remote_url branch sha
    lean_version : str) (x : X) : result (list reply) * X :=
  (Ok script, x).

(** Every file has the same text. *)
Definition read_text {X} (file_text : str) (file : str) (x : X) : result str :=
  Ok file_text.

Definition format_prompt (goal file_text : str) (line column : Z) : str :=
  goal ++ (newline :: file_text).

Definition initial {X} (x : X) : state X (list reply) :=
  {| world := x; token_usage := (0%Q, 0%Q); client_repl := None;
     out_json := None; generator_calls := [] |}.

Definition sorry_at (id : string) (parent : string) (line column : Z)
  : sorry_record :=
  {| uuid := py id; goal_type := py "2 + 2 = 4"; parentType := py parent;
     loc_file := py "Main.lean"; startLine := line; startColumn := column |}.

Definition one_commit (sorries : list sorry_record) : list repo :=
  [{| remote_url := py "https://example.org/r.git";
      commits := [{| branch := py "main"; sha := py "abc";
                     lean_version := py "v4.16.0";
                     commit_sorries := sorries |}] |}].

End Script.

(** *** The orchestrator on scripted collaborators *)

Module Example.

Definition file_text : str := py "example : 2 + 2 = 4 := sorry".

(** A REPL that finds the sorry at line 1, column 25, and reports no goal
    after the first tactic. *)
Definition repl_script : list reply :=
  [load_reply [{| pos_line := 1; pos_column := 25; sorry_proofState := 0 |}];
   tactic_reply None (Some 1%Z) (Some [])].

Definition rfl_response : model_response :=
  {| content := py "rfl"; input_tokens := 100; output_tokens := 2 |}.

Definition s1 : sorry_record := Script.sorry_at "u1" "Prop" 1 25.
Definition s2 : sorry_record := Script.sorry_at "u2" "Prop" 1 25.
Definition s3 : sorry_record := Script.sorry_at "u3" "Type" 1 25.
Definition s4 : sorry_record := Script.sorry_at "u1" "Type" 1 25.

Definition run (world : list (result model_response))
    (sorries : list sorry_record)
  : result () * state (list (result model_response)) (list reply) :=
  solve_sorry_db Script.invoke (Script.prepare repl_script)
    (Script.read_text file_text) scripted Script.format_prompt
    (Script.one_commit sorries) (Script.initial world).

End Example.

(** Since [st0], the generator was called for exactly the sorries
    [attempted], each has an entry in [llm], and [llm] is what the output
    file holds once a sorry was attempted. *)
Definition attempted_all {X R} (st0 : state X R)
    (attempted : list sorry_record) (llm : gmap str (option str))
    (st : state X R) : Prop :=
  generator_calls st = generator_calls st0 ++ attempted
  ∧ (attempted ≠ [] → out_json st = Some llm)
  ∧ ∀ s, s ∈ attempted → is_Some (llm !! uuid s).

(** [self.token_usage] of [st] is at most that of [st'], componentwise. *)
Definition usage_le {X R} (st st' : state X R) : Prop :=
  ((token_usage st).1 <= (token_usage st').1)%Q
  ∧ ((token_usage st).2 <= (token_usage st').2)%Q.


(** What [process_file_content] looks for in a line: stripped, it is not a
    line comment and one of its white-space separated words is [sorry]. *)
Definition reports_sorry (line : str) : bool :=
  let line := strip line in
  negb (FindSorries.startswith (py "--") line
        || FindSorries.startswith (py "/--") line)
  && bool_decide (py "sorry" ∈ FindSorries.split line).

(** [word] occurs in [s] between white space or the ends of [s]. *)
Definition delimited (word s : str) : Prop :=
  ∃ before after,
    s = before ++ word ++ after
    ∧ (∀ c, last before = Some c → isspace c = true)
    ∧ (∀ c, head after = Some c → isspace c = true).

(** What makes an element [r] of the list [process_repository] returns a
    sound report, [branch_commits] being what [get_recent_commits]
    returned: it names the repository; its branch is an active branch and
    its commit the newest commit of that branch; its file is a [.lean] file
    whose content at that commit was fetched and has a sorry at that line;
    its blame is what the blame request for that line returned and is not
    older than the cut-off. *)
Definition sound_report {W}
    (get_file_content_at_ref : str → str → str → W → result (option str) * W)
    (get_line_blame_info :
       str → str → nat → W → result (option Discovery.blame_info) * W)
    (before_cutoff : str → result bool)
    (repo : str) (branch_commits : list (str * Discovery.branch_entry))
    (r : Discovery.found_sorry) : Prop :=
  Discovery.repository r = repo
  ∧ Discovery.github_url r
    = Discovery.github_url_of repo (Discovery.head_sha r)
        (Discovery.file_path r) (Discovery.line_number r)
  ∧ (∃ entry,
       Discovery.dict_get (Discovery.branch r) branch_commits = Ok entry
       ∧ head (Discovery.commits entry) = Some (Discovery.head_sha r)
       ∧ Discovery.found_head_date r = Discovery.head_date entry)
  ∧ Discovery.endswith (py ".lean") (Discovery.file_path r) = true
  ∧ (∃ w1 w1' content,
       get_file_content_at_ref repo (Discovery.file_path r)
         (Discovery.head_sha r) w1 = (Ok (Some content), w1')
       ∧ Discovery.line_number r ∈ FindSorries.process_file_content content)
  ∧ (∃ w2 w2',
       get_line_blame_info repo (Discovery.file_path r)
         (Discovery.line_number r) w2 = (Ok (Some (Discovery.blame r)), w2'))
  ∧ before_cutoff (Discovery.date (Discovery.blame r)) = Ok false.

(** All results recorded so far are sound reports. *)
Definition all_sound {W}
    (get_file_content_at_ref : str → str → str → W → result (option str) * W)
    (get_line_blame_info :
       str → str → nat → W → result (option Discovery.blame_info) * W)
    (before_cutoff : str → result bool)
    (repo : str) (branch_commits : list (str * Discovery.branch_entry))
    (st : @Discovery.run W) : Prop :=
  Forall (sound_report get_file_content_at_ref get_line_blame_info
            before_cutoff repo branch_commits) (Discovery.results st).

(** Discovery on a fixed repository: one active branch with two commits,
    each touching [Main.lean] and [README.md]; [Main.lean] has a sorry on
    its second line, blamed on a recent commit. *)
Module DiscoveryExample.

Definition branch_commits : list (str * Discovery.branch_entry) :=
  [(py "main", {| Discovery.commits := [py "c2"; py "c1"];
                  Discovery.head_date := py "2025-03-01T00:00:00Z" |})].

Definition get_recent_commits (repo : str) (w : ())
  : result (list (str * Discovery.branch_entry)) * () :=
  (Ok branch_commits, w).

Definition get_commit_files (repo commit_sha : str) (w : ())
  : result (list (option str)) * () :=
  (Ok [Some (py "Main.lean"); Some (py "README.md")], w).

Definition content : str := text ["theorem t : 1 = 1 := by"; "  sorry"].

Definition get_file_content_at_ref (repo path ref : str) (w : ())
  : result (option str) * () :=
  (Ok (Some content), w).

Definition blame : Discovery.blame_info :=
  {| Discovery.author := py "A. Author";
     Discovery.email := py "a@example.org";
     Discovery.date := py "2025-02-27T10:00:00Z";
     Discovery.message := py "wip" |}.

Definition get_line_blame_info (repo path : str) (line_number : nat) (w : ())
  : result (option Discovery.blame_info) * () :=
  (Ok (Some blame), w).

Definition before_cutoff (date : str) : result bool := Ok false.

Definition report : Discovery.found_sorry :=
  {| Discovery.repository := py "owner/repo";
     Discovery.branch := py "main";
     Discovery.head_sha := py "c2";
     Discovery.found_head_date := py "2025-03-01T00:00:00Z";
     Discovery.file_path := py "Main.lean";
     Discovery.github_url :=
       py "https://github.com/owner/repo/blob/c2/Main.lean#L2";
     Discovery.line_number := 2;
     Discovery.blame := blame |}.

End DiscoveryExample.

(** ** Facts about lines, joining and splitting *)

Section line_facts.

Implicit Types (s t l : str) (ls : list str).

Lemma split_nl_nonempty s : split_nl s ≠ [].
Proof. destruct s as [|c s]; simpl; [done|]. case_match; [done|]. by case_match. Qed.

Lemma split_nl_no_newline s : Forall (λ l, newline ∉ l) (split_nl s).
Proof.
  induction s as [|c s IH]; simpl.
  - repeat constructor. apply not_elem_of_nil.
  - destruct (N.eqb_spec c newline) as [->|Hc].
    + constructor; [apply not_elem_of_nil|done].
    + assert (∀ l, newline ∉ l → newline ∉ c :: l) as Hcons.
      { intros l Hl. apply not_elem_of_cons. split; [congruence|done]. }
      destruct (split_nl s) as [|l ls]; inversion_clear IH.
      * repeat constructor. apply Hcons, not_elem_of_nil.
      * constructor; [by apply Hcons|done].
Qed.

Lemma split_nl_line l : newline ∉ l → split_nl l = [l].
Proof.
  induction l as [|c l IH]; intros Hl; simpl; [done|].
  apply not_elem_of_cons in Hl as [Hc Hl].
  destruct (N.eqb_spec c newline) as [->|_]; [done|].
  by rewrite IH.
Qed.

Lemma split_nl_app s t :
  split_nl (s ++ newline :: t) = split_nl s ++ split_nl t.
Proof.
  induction s as [|c s IH]; simpl; [done|].
  destruct (N.eqb_spec c newline) as [->|Hc]; [by rewrite IH|].
  rewrite IH. pose proof (split_nl_nonempty s).
  by destruct (split_nl s).
Qed.

Lemma join_nl_cons l ls : ls ≠ [] → join_nl (l :: ls) = l ++ newline :: join_nl ls.
Proof. by destruct ls. Qed.

Lemma join_nl_split_nl s : join_nl (split_nl s) = s.
Proof.
  induction s as [|c s IH]; simpl; [done|].
  pose proof (split_nl_nonempty s) as Hne.
  destruct (N.eqb_spec c newline) as [->|Hc].
  - by rewrite join_nl_cons, IH.
  - destruct (split_nl s) as [|l ls]; [done|].
    destruct ls as [|l' ls]; simpl in *; by rewrite <-IH.
Qed.

Lemma join_nl_snoc ls l : ls ≠ [] → join_nl (ls ++ [l]) = join_nl ls ++ newline :: l.
Proof.
  induction ls as [|l0 ls IH]; intros Hne; [done|].
  destruct ls as [|l1 ls]; [done|].
  change ((l0 :: l1 :: ls) ++ [l]) with (l0 :: ((l1 :: ls) ++ [l])).
  rewrite !join_nl_cons, IH by done. by rewrite <-app_assoc.
Qed.

Lemma entry_lines_snoc ts t : entry_lines (ts ++ [t]) = entry_lines ts ++ split_nl t.
Proof. unfold entry_lines. by rewrite fmap_app, concat_app; simpl; rewrite app_nil_r. Qed.

Lemma split_nl_join_nl ts : ts ≠ [] → split_nl (join_nl ts) = entry_lines ts.
Proof.
  induction ts as [|t ts IH]; intros Hne; [done|].
  destruct ts as [|t' ts]; [by unfold entry_lines; simpl; rewrite app_nil_r|].
  rewrite join_nl_cons, split_nl_app, IH by done. done.
Qed.

(** *** Leading white space *)

Lemma lstrip_length s : length (lstrip s) ≤ length s.
Proof. induction s as [|c s IH]; simpl; [done|]. case_match; simpl; lia. Qed.

Lemma indent_le_length s : indent s ≤ length s.
Proof. unfold indent. lia. Qed.

Lemma lstrip_drop_indent s : lstrip s = drop (indent s) s.
Proof.
  unfold indent. induction s as [|c s IH]; simpl; [done|].
  pose proof (lstrip_length s). destruct (isspace c); simpl.
  - replace (S (length s) - length (lstrip s)) with (S (length s - length (lstrip s))) by lia.
    done.
  - by replace (length s - length s) with 0 by lia.
Qed.

Lemma take_indent_isspace s : Forall (λ c, isspace c = true) (take (indent s) s).
Proof.
  unfold indent. induction s as [|c s IH]; simpl; [constructor|].
  pose proof (lstrip_length s). destruct (isspace c) eqn:Hc; simpl.
  - replace (S (length s) - length (lstrip s)) with (S (length s - length (lstrip s))) by lia.
    by constructor.
  - replace (length s - length s) with 0 by lia. constructor.
Qed.

Lemma lstrip_spaces_app ws s :
  Forall (λ c, isspace c = true) ws → lstrip (ws ++ s) = lstrip s.
Proof. induction 1 as [|c ws Hc _ IH]; simpl; [done|]. by rewrite Hc. Qed.

Lemma indent_0_cons c s : isspace c = false → indent (c :: s) = 0.
Proof. intros Hc. unfold indent; simpl. rewrite Hc. simpl. lia. Qed.

Lemma indent_0_inv s : indent s = 0 → lstrip s = s.
Proof. intros H. by rewrite lstrip_drop_indent, H. Qed.

End line_facts.

(** ** The splitting loop *)

Section split_loop_facts.

Implicit Types (line t : str) (lines tactics ts : list str).

Lemma append_to_last_nil line : append_to_last [] line = Raise IndexError.
Proof. done. Qed.

Lemma append_to_last_snoc tactics t line :
  append_to_last (tactics ++ [t]) line = Ok (tactics ++ [t ++ newline :: line]).
Proof.
  induction tactics as [|t0 tactics IH]; [done|].
  change ((t0 :: tactics) ++ [t]) with (t0 :: (tactics ++ [t])).
  simpl. rewrite IH. by destruct tactics.
Qed.

Lemma split_loop_app base lines1 lines2 tactics :
  split_loop base (lines1 ++ lines2) tactics
  = split_loop base lines1 tactics ≫= split_loop base lines2.
Proof.
  revert tactics. induction lines1 as [|line lines1 IH]; intros tactics; simpl; [done|].
  destruct (is_blank line); [apply IH|].
  case_decide; [apply IH|].
  destruct (append_to_last tactics _); [apply IH|done].
Qed.

Lemma normalize_line_no_newline base line :
  newline ∉ line → newline ∉ normalize_line base line.
Proof.
  intros Hl Hin. apply Hl. unfold normalize_line, strip_terminator, strip_base in Hin.
  destruct (endswith_semicolon _).
  - rewrite removelast_firstn_len in Hin.
    by apply subseteq_take, subseteq_drop in Hin.
  - by apply subseteq_drop in Hin.
Qed.

Lemma normalize_line_0 line :
  endswith_semicolon line = false → normalize_line 0 line = line.
Proof.
  intros H. unfold normalize_line, strip_terminator, strip_base.
  by rewrite drop_0, H.
Qed.

Lemma tactic_shape_head line :
  newline ∉ line → indent line = 0 → tactic_shape line.
Proof. intros Hl Hi. unfold tactic_shape. by rewrite split_nl_line. Qed.

Lemma tactic_shape_cont t line :
  tactic_shape t → newline ∉ line → indent line ≠ 0 →
  tactic_shape (t ++ newline :: line).
Proof.
  unfold tactic_shape. intros Ht Hl Hi.
  rewrite split_nl_app, (split_nl_line line) by done.
  destruct (split_nl t) as [|head conts]; [done|]. destruct Ht as [? ?].
  split; [done|]. apply Forall_app; split; [done|]. by constructor.
Qed.

(** What the loop returns, line by line: the non-blank input lines, each
    normalized, grouped into entries of the above shape. *)
Lemma split_loop_invariant base lines tactics ts :
  Forall (λ l, newline ∉ l) lines →
  split_loop base lines tactics = Ok ts →
  entry_lines ts
  = entry_lines tactics
    ++ (normalize_line base <$> filter (λ l, is_blank l = false) lines)
  ∧ (Forall tactic_shape tactics → Forall tactic_shape ts).
Proof.
  intros Hnl. revert tactics.
  induction Hnl as [|line lines Hline _ IH]; intros tactics; simpl.
  { intros [= ->]. by rewrite app_nil_r. }
  rewrite filter_cons. destruct (is_blank line) eqn:Hb.
  { rewrite (decide_False (P := true = false)) by done. apply IH. }
  rewrite (decide_True (P := false = false)) by done. rewrite fmap_cons.
  pose proof (normalize_line_no_newline base line Hline) as Hn.
  case_decide as Hi.
  - intros Hrun. destruct (IH _ Hrun) as [Hlines Hshape].
    rewrite Hlines, entry_lines_snoc, split_nl_line, <-app_assoc by done.
    split; [done|]. intros Hacc. apply Hshape, Forall_app. split; [done|].
    constructor; [|done]. by apply tactic_shape_head.
  - destruct tactics as [|t tactics _] using rev_ind; [done|].
    rewrite append_to_last_snoc. simpl. intros Hrun.
    destruct (IH _ Hrun) as [Hlines Hshape].
    rewrite Hlines, !entry_lines_snoc, split_nl_app.
    rewrite (split_nl_line (normalize_line base line)) by done.
    rewrite <-!app_assoc. split; [done|].
    intros [Hacc Ht]%Forall_app. apply Hshape, Forall_app. split; [done|].
    inversion_clear Ht. constructor; [|done]. by apply tactic_shape_cont.
Qed.

End split_loop_facts.

(** ** Re-splitting the output of the splitter *)

Section resplit.

Implicit Types (line t : str) (lines tactics ts : list str).

Lemma lstrip_snoc s c :
  isspace c = false → lstrip (s ++ [c]) = lstrip s ++ [c].
Proof.
  intros Hc. induction s as [|c0 s IH]; simpl; [by rewrite Hc|].
  by destruct (isspace c0).
Qed.

Lemma endswith_semicolon_inv line :
  endswith_semicolon line = true →
  line = removelast line ++ [semicolon].
Proof.
  unfold endswith_semicolon.
  destruct line as [|c line _] using rev_ind; [done|].
  rewrite rev_app_distr. simpl. intros ->%N.eqb_eq.
  by rewrite removelast_last.
Qed.

(** Removing the terminator does not change the indentation. *)
Lemma indent_strip_terminator line :
  indent (strip_terminator line) = indent line.
Proof.
  unfold strip_terminator.
  destruct (endswith_semicolon line) eqn:Hsemi; [|done].
  apply endswith_semicolon_inv in Hsemi. rewrite Hsemi at 2.
  unfold indent. rewrite lstrip_snoc by done. rewrite !length_app. simpl.
  pose proof (lstrip_length (removelast line)). lia.
Qed.

Lemma strip_terminators_id t :
  Forall (λ l, endswith_semicolon l = false) (split_nl t) →
  strip_terminators t = t.
Proof.
  intros Hfree. unfold strip_terminators.
  rewrite <-(join_nl_split_nl t) at 2. f_equal.
  induction Hfree as [|l ls Hl _ IH]; [done|].
  rewrite fmap_cons, IH. unfold strip_terminator. by rewrite Hl.
Qed.

Lemma resplit_conts conts pre rest tactics :
  pre ≠ [] →
  Forall (λ c, indent c ≠ 0) conts →
  Forall (λ c, is_blank c = false) conts →
  split_loop 0 (conts ++ rest) (tactics ++ [join_nl pre])
  = split_loop 0 rest
      (tactics ++ [join_nl (pre ++ (strip_terminator <$> conts))]).
Proof.
  intros Hpre Hind. revert pre Hpre.
  induction Hind as [|c conts Hc _ IH]; intros pre Hpre Hst.
  { by rewrite app_nil_r. }
  apply Forall_cons in Hst as [Hb Hst].
  simpl. rewrite Hb. unfold normalize_line, strip_base. rewrite drop_0.
  rewrite decide_False by (by rewrite indent_strip_terminator).
  rewrite append_to_last_snoc. simpl.
  rewrite <-join_nl_snoc by done.
  rewrite IH; [|by destruct pre|done].
  by rewrite <-app_assoc.
Qed.

Lemma resplit_entry t rest tactics :
  tactic_shape t →
  Forall (λ c, is_blank c = false) (split_nl t) →
  split_loop 0 (split_nl t ++ rest) tactics
  = split_loop 0 rest (tactics ++ [strip_terminators t]).
Proof.
  unfold tactic_shape, strip_terminators. intros Hshape Hst.
  destruct (split_nl t) as [|head conts]; [done|].
  destruct Hshape as [Hhead Hconts].
  apply Forall_cons in Hst as [Hb Hst].
  simpl. rewrite Hb. unfold normalize_line, strip_base. rewrite drop_0.
  rewrite decide_True by (by rewrite indent_strip_terminator).
  by rewrite (resplit_conts conts [strip_terminator head]).
Qed.

Lemma resplit_entries ts tactics :
  Forall tactic_shape ts →
  Forall (λ c, is_blank c = false) (entry_lines ts) →
  split_loop 0 (entry_lines ts) tactics
  = Ok (tactics ++ (strip_terminators <$> ts)).
Proof.
  intros Hshape. revert tactics.
  induction Hshape as [|t ts Ht _ IH]; intros tactics Hst.
  { by rewrite app_nil_r. }
  change (entry_lines (t :: ts)) with (split_nl t ++ entry_lines ts) in *.
  apply Forall_app in Hst as [Hst1 Hst2].
  rewrite resplit_entry, IH by done. by rewrite <-app_assoc.
Qed.

Lemma split_proof_second_pass ts :
  Forall tactic_shape ts → resplittable ts = true →
  split_proof (join_nl ts) = Ok (strip_terminators <$> ts).
Proof.
  intros Hshape [Hst Hby]%andb_prop.
  destruct ts as [|t ts]; [done|].
  apply negb_true_iff, bool_decide_eq_false in Hby.
  assert (Forall (λ c, is_blank c = false) (entry_lines (t :: ts))) as Hall.
  { apply Forall_forall. intros l Hl. rewrite forallb_forall in Hst.
    by apply negb_true_iff, Hst, list_elem_of_In. }
  pose proof (resplit_entries (t :: ts) [] Hshape Hall) as Hrun.
  unfold split_proof. rewrite split_nl_join_nl by done.
  assert (∃ head rest, entry_lines (t :: ts) = head :: rest ∧ indent head = 0)
    as (head & rest & Hlines & Hhead).
  { inversion_clear Hshape as [|?? Ht _]. unfold tactic_shape in Ht.
    change (entry_lines (t :: ts)) with (split_nl t ++ entry_lines ts).
    destruct (split_nl t) as [|head conts]; [done|]. destruct Ht as [? _].
    eauto. }
  rewrite Hlines in Hby, Hrun |- *. simpl in Hby.
  unfold drop_introducer. simpl. rewrite decide_False by done. simpl.
  unfold split_lines. simpl index0. simpl mbind. by rewrite Hhead.
Qed.

Lemma terminator_free_fmap ts :
  terminator_free ts = true → strip_terminators <$> ts = ts.
Proof.
  unfold terminator_free. intros Hfree.
  assert (Forall (λ l, endswith_semicolon l = false) (entry_lines ts)) as Hall.
  { apply Forall_forall. intros l Hl. rewrite forallb_forall in Hfree.
    by apply negb_true_iff, Hfree, list_elem_of_In. }
  clear Hfree. induction ts as [|t ts IH]; [done|].
  change (entry_lines (t :: ts)) with (split_nl t ++ entry_lines ts) in Hall.
  apply Forall_app in Hall as [Ht Hts].
  by rewrite fmap_cons, strip_terminators_id, IH.
Qed.

(** The parts of a successful run of the splitter. *)
Lemma split_proof_Ok_inv proof ts :
  split_proof proof = Ok ts →
  ∃ lines first,
    drop_introducer (split_nl proof) = Ok lines
    ∧ head lines = Some first
    ∧ Forall (λ l, newline ∉ l) lines
    ∧ split_loop (indent first) lines [] = Ok ts.
Proof.
  unfold split_proof. intros Hrun.
  pose proof (split_nl_no_newline proof) as Hnl.
  destruct (drop_introducer (split_nl proof)) as [lines|] eqn:Hdrop; [|done].
  unfold split_lines in Hrun.
  destruct lines as [|first lines]; [done|].
  exists (first :: lines), first. split_and!; [done..| |exact Hrun].
  unfold drop_introducer in Hdrop.
  destruct (split_nl proof) as [|l0 ls]; [done|]. simpl in Hdrop.
  case_decide; simplify_eq; [|done].
  rewrite drop_0 in Hdrop. subst ls. by inversion_clear Hnl.
Qed.

Lemma split_proof_shape proof ts :
  split_proof proof = Ok ts → Forall tactic_shape ts.
Proof.
  intros (lines & first & _ & _ & Hnl & Hrun)%split_proof_Ok_inv.
  by apply (split_loop_invariant _ _ _ _ Hnl Hrun).
Qed.

End resplit.

(** ** The splitter: block introducer, base indentation, partiality *)

Section splitter_claims.

Implicit Types (proof line first : str) (lines ts : list str).

Lemma strip_base_within_indent base line :
  base ≤ indent line →
  line = take base line ++ strip_base base line
  ∧ Forall (λ c, isspace c = true) (take base line)
  ∧ lstrip (strip_base base line) = lstrip line.
Proof.
  intros Hle. unfold strip_base.
  assert (Forall (λ c, isspace c = true) (take base line)) as Hws.
  { replace base with (base `min` indent line) by lia.
    rewrite <-take_take. apply Forall_take, take_indent_isspace. }
  split_and!; [by rewrite take_drop|done|].
  rewrite <-(take_drop base line) at 2. by rewrite lstrip_spaces_app.
Qed.

Lemma split_proof_lines proof lines first :
  drop_introducer (split_nl proof) = Ok lines → head lines = Some first →
  split_proof proof = split_loop (indent first) lines [].
Proof.
  intros Hdrop Hhead. unfold split_proof. rewrite Hdrop.
  destruct lines as [|l0 lines]; simplify_eq/=. done.
Qed.

Lemma drop_introducer_no_newline proof lines :
  drop_introducer (split_nl proof) = Ok lines → Forall (λ l, newline ∉ l) lines.
Proof.
  pose proof (split_nl_no_newline proof) as Hnl. unfold drop_introducer.
  destruct (split_nl proof) as [|l0 ls]; [done|]. simpl.
  case_decide; intros [= <-]; [|done].
  rewrite drop_0. by inversion_clear Hnl.
Qed.

(** C10.  The splitter is partial: on the one-line input ["by"] the
    introducer is dropped and [lines[0]] is then out of range, so the call
    fails with an [IndexError]; on the empty string it returns the empty
    list. *)
Theorem split_proof_partial :
  split_proof (py "by") = Raise IndexError ∧ split_proof [] = Ok [].
Proof. split; reflexivity. Qed.

(** C7, as the code has it.  When the first line, [lines[0]], stripped of
    surrounding white space is exactly ["by"], that line is dropped: the
    result is that of the remaining lines alone, and every line of every
    returned tactic is a (normalized) line of the remainder.  In particular
    the text ["by\n  intro x\n  exact h x"] gives
    [["intro x", "exact h x"]]. *)
Theorem split_proof_drops_by first rest :
  newline ∉ first → strip first = by_token →
  split_proof (first ++ newline :: rest) = split_lines (split_nl rest)
  ∧ (∀ ts, split_proof (first ++ newline :: rest) = Ok ts →
       ∃ base, entry_lines ts
               = normalize_line base
                 <$> filter (λ l, is_blank l = false) (split_nl rest))
  ∧ split_proof (text ["by"; "  intro x"; "  exact h x"])
    = Ok [py "intro x"; py "exact h x"].
Proof.
  intros Hnl Hby.
  assert (split_proof (first ++ newline :: rest) = split_lines (split_nl rest))
    as Heq.
  { unfold split_proof. rewrite split_nl_app, split_nl_line by done.
    unfold drop_introducer. simpl. rewrite decide_True by done.
    by rewrite drop_0. }
  split_and!; [done| |reflexivity].
  intros ts. rewrite Heq. unfold split_lines.
  pose proof (split_nl_no_newline rest) as Hrest.
  destruct (split_nl rest) as [|l0 ls] eqn:Hls; [done|].
  intros Hrun. exists (indent l0).
  change (split_loop (indent l0) (l0 :: ls) [] = Ok ts) in Hrun.
  by apply (split_loop_invariant _ _ _ _ Hrest Hrun).
Qed.

Lemma split_proof_drops_by_witness :
  let rest := text ["  intro x"; "  exact h x"] in
  split_proof (py " by " ++ newline :: rest) = split_lines (split_nl rest)
  ∧ split_proof (py " by " ++ newline :: rest)
    = Ok [py "intro x"; py "exact h x"].
Proof.
  split; [|reflexivity].
  apply (split_proof_drops_by (py " by ")
           (text ["  intro x"; "  exact h x"])).
  - by apply (bool_decide_unpack _).
  - reflexivity.
Defined.

(** C7, counterexample.  In ["\nby\n  intro x"] the first non-empty line is
    exactly ["by"], yet it is kept: it starts the returned tactic. *)
Lemma split_proof_keeps_later_by :
  let proof := text [EmptyString; "by"; "  intro x"] in
  first_nonempty_line (split_nl proof) = Some by_token
  ∧ split_proof proof = Ok [text ["by"; "  intro x"]]
  ∧ by_token ∈ entry_lines [text ["by"; "  intro x"]].
Proof. split_and!; [reflexivity..|]. vm_compute. by left. Qed.

(** C5, as the code has it.  The base indentation is the indentation of the
    first remaining line, [lines[0]], blank or not; the loop removes that
    many leading characters from every non-blank line; from a line indented
    at least that much this removes white space only and leaves its content
    intact; and the returned tactics consist, line by line, of the non-blank
    remaining lines so normalized. *)
Theorem split_proof_base_indent proof lines first :
  drop_introducer (split_nl proof) = Ok lines → head lines = Some first →
  split_proof proof = split_loop (indent first) lines []
  ∧ (∀ line, indent first ≤ indent line →
       line = take (indent first) line ++ strip_base (indent first) line
       ∧ Forall (λ c, isspace c = true) (take (indent first) line)
       ∧ lstrip (strip_base (indent first) line) = lstrip line)
  ∧ (∀ ts, split_proof proof = Ok ts →
       entry_lines ts
       = normalize_line (indent first)
         <$> filter (λ l, is_blank l = false) lines).
Proof.
  intros Hdrop Hhead.
  pose proof (split_proof_lines _ _ _ Hdrop Hhead) as Heq.
  split_and!; [done| |].
  - intros line. apply strip_base_within_indent.
  - intros ts. rewrite Heq. intros Hrun.
    pose proof (drop_introducer_no_newline _ _ Hdrop) as Hnl.
    by apply (split_loop_invariant _ _ _ _ Hnl Hrun).
Qed.

Lemma split_proof_base_indent_witness :
  let proof := text ["  rw [foo,"; "    bar]"; "  rfl"] in
  split_proof proof
  = split_loop 2 (py <$> ["  rw [foo,"; "    bar]"; "  rfl"]) []
  ∧ split_proof proof = Ok [text ["rw [foo,"; "  bar]"]; py "rfl"].
Proof.
  split; [|reflexivity].
  apply (split_proof_base_indent
           (text ["  rw [foo,"; "    bar]"; "  rfl"])
           (py <$> ["  rw [foo,"; "    bar]"; "  rfl"])
           (py "  rw [foo,")); reflexivity.
Defined.

(** C5, counterexamples.  (1) With a blank first line the base indentation
    is that of the blank line, 0, not that of the first non-blank line, 2,
    and the call fails.  (2) A line indented less than the base indentation
    loses its first characters: ["exact h"] under base indentation 2 becomes
    ["act h"]. *)
Lemma split_proof_shallow_line_truncated :
  (first_nonblank_indent (split_nl (text [EmptyString; "  a"])) = Some 2
   ∧ (indent <$> head (split_nl (text [EmptyString; "  a"]))) = Some 0
   ∧ split_proof (text [EmptyString; "  a"]) = Raise IndexError)
  ∧ (indent (py "exact h") < indent (py "  intro x")
     ∧ split_proof (text ["  intro x"; "exact h"])
       = Ok [py "intro x"; py "act h"]).
Proof. split_and!; try reflexivity. vm_compute. lia. Qed.

(** C6, as the code has it.  When the first non-blank line is a
    continuation line (its indentation after removing the base indentation
    and the terminator is not zero), no tactic entry has been started and
    [tactics[-1]] is out of range: the splitter fails with an [IndexError];
    the line is not skipped. *)
Theorem split_proof_leading_continuation proof blanks line rest :
  drop_introducer (split_nl proof) = Ok (blanks ++ line :: rest) →
  Forall (λ l, is_blank l = true) blanks →
  is_blank line = false →
  indent (normalize_line
            (indent (default [] (head (blanks ++ line :: rest)))) line) ≠ 0 →
  split_proof proof = Raise IndexError.
Proof.
  intros Hdrop Hblanks Hline Hind.
  destruct (blanks ++ line :: rest) as [|l0 ls] eqn:Hlines.
  { by destruct blanks. }
  rewrite (split_proof_lines _ _ l0 Hdrop) by done.
  simpl in Hind. rewrite <-Hlines. clear Hlines Hdrop.
  generalize (indent l0) Hind. intros base Hbase.
  induction Hblanks as [|b blanks Hb _ IH]; simpl.
  - rewrite Hline. by rewrite decide_False.
  - by rewrite Hb.
Qed.

Lemma split_proof_leading_continuation_witness :
  split_proof (text [EmptyString; "  a"]) = Raise IndexError.
Proof.
  apply (split_proof_leading_continuation _ [[]] (py "  a") []).
  - reflexivity.
  - by repeat constructor.
  - reflexivity.
  - vm_compute. lia.
Defined.

(** C6, counterexample.  After the introducer and an empty line, the
    indented line ["  intro x"] is a continuation line before any tactic
    entry; the call does not return a list. *)
Lemma split_proof_continuation_crash :
  let lines := py <$> [EmptyString; "  intro x"] in
  drop_introducer (split_nl (text ["by"; EmptyString; "  intro x"])) = Ok lines
  ∧ indent (normalize_line 0 (py "  intro x")) = 2
  ∧ split_loop 0 lines [] = Raise IndexError
  ∧ split_proof (text ["by"; EmptyString; "  intro x"]) = Raise IndexError.
Proof. split_and!; reflexivity. Qed.

(** C8, as the code has it.  When the splitter returns a list no line of
    which is blank and whose first line, stripped of surrounding white
    space, is not the block introducer, splitting the newline-join of that
    list gives the same list up to the terminator-stripping normalization:
    each entry with one trailing [;] removed from each of its lines.  When
    in addition no line of the list ends with [;], it gives the same list
    again. *)
Theorem split_proof_idempotent proof ts :
  split_proof proof = Ok ts → resplittable ts = true →
  split_proof (join_nl ts) = Ok (strip_terminators <$> ts)
  ∧ (terminator_free ts = true →
     split_proof (join_nl ts) = split_proof proof).
Proof.
  intros Hrun Hst.
  assert (split_proof (join_nl ts) = Ok (strip_terminators <$> ts)) as Hsecond.
  { apply split_proof_second_pass; [|done]. by eapply split_proof_shape. }
  split; [done|]. intros Hfree.
  by rewrite Hsecond, Hrun, terminator_free_fmap.
Qed.

Lemma split_proof_idempotent_witness :
  let proof := text ["by"; "  rw [foo,"; "    bar];;"; EmptyString; "  rfl"] in
  split_proof proof = Ok [text ["rw [foo,"; "  bar];"]; py "rfl"]
  ∧ split_proof (join_nl [text ["rw [foo,"; "  bar];"]; py "rfl"])
    = Ok [text ["rw [foo,"; "  bar]"]; py "rfl"].
Proof.
  split; [reflexivity|].
  apply (split_proof_idempotent
           (text ["by"; "  rw [foo,"; "    bar];;"; EmptyString; "  rfl"])
           [text ["rw [foo,"; "  bar];"]; py "rfl"]); reflexivity.
Defined.

(** C8, counterexamples.  The second pass differs from the first, also up
    to the terminator-stripping normalization, (1) when the terminator
    leaves an empty entry, which the second pass drops, and (2) when the
    first returned line is the block introducer, which the second pass
    drops, here leaving no line at all. *)
Lemma split_proof_not_idempotent :
  (split_proof (py ";") = Ok [[]]
   ∧ split_proof (join_nl [[]]) = Ok []
   ∧ strip_terminators <$> [[]] = [[]])
  ∧ (split_proof (text ["by"; "by"]) = Ok [py "by"]
     ∧ split_proof (join_nl [py "by"]) = Raise IndexError
     ∧ strip_terminators <$> [py "by"] = [py "by"]).
Proof. split_and!; reflexivity. Qed.

End splitter_claims.

(** ** The verifier: stepping through a candidate proof *)

Section verifier_claims.

Context {R : Type} (send_command : command → R → result reply * R).

Implicit Types (r : R) (s : session R) (rep : reply) (proof : list str).

Lemma apply_tactics_steps r ps rep pre r' ps' rep' :
  steps send_command r ps rep pre r' ps' rep' →
  ∃ handles, length handles = length pre ∧
    ∀ post complete log,
      apply_tactics send_command (pre ++ post) ps rep complete
        {| repl := r; exchanges := log |}
      = apply_tactics send_command post ps' rep' (complete ++ pre)
          {| repl := r'; exchanges := log ++ zip_with Tactic pre handles |}.
Proof.
  induction 1 as [r ps rep|r ps rep tactic rest rep1 r1 ps1 r' ps' rep'
                             Hsend Herr Hps _ [handles [Hlen IH]]].
  - exists []. split; [done|]. intros post complete log. by rewrite !app_nil_r.
  - exists (ps :: handles). split; [simpl; by rewrite Hlen|].
    intros post complete log. simpl.
    unfold mbind, M_bind, exchange. simpl. rewrite Hsend, Herr, Hps.
    rewrite IH. by rewrite <-!app_assoc.
Qed.

Lemma check_proof_located file_text line column proof s0 rep0 r1 found sorry :
  send_command (Cmd file_text) (repl s0) = (Ok rep0, r1) →
  sorries rep0 = Some found →
  find_sorry line column found = Some sorry →
  check_proof send_command file_text line column proof s0
  = (end_of_loop ← apply_tactics send_command proof (sorry_proofState sorry)
                     rep0 [];
     match end_of_loop with
     | ReturnNone => mret None
     | Exhausted reply complete_proof =>
         remaining ← lift (lookup_key "goals" (goals reply));
         if decide (remaining = [])
         then mret (Some (join_nl complete_proof))
         else mret None
     end)
      {| repl := r1; exchanges := exchanges s0 ++ [Cmd file_text] |}.
Proof.
  intros Hsend Hfound Hfind. unfold check_proof.
  unfold mbind at 1. unfold M_bind at 1. unfold exchange. rewrite Hsend.
  unfold mbind at 1. unfold M_bind at 1. unfold lift at 1.
  rewrite Hfound. simpl. by rewrite Hfind.
Qed.

(** C2.  Fail-fast: when the obligation is located, tactics [1..k-1] are
    applied successfully and the reply to tactic [k] carries a diagnostic of
    error severity or no new proof-state handle, [_check_proof] returns
    [None], and the requests submitted to the REPL are exactly the file
    load followed by tactics [1..k] in order: tactics [k+1..n] are never
    sent. *)
Theorem check_proof_fail_fast file_text line column pre tactic post
    s0 rep0 r1 found sorry r_k ps_k rep_k rep r' :
  send_command (Cmd file_text) (repl s0) = (Ok rep0, r1) →
  sorries rep0 = Some found →
  find_sorry line column found = Some sorry →
  steps send_command r1 (sorry_proofState sorry) rep0 pre r_k ps_k rep_k →
  send_command (Tactic tactic ps_k) r_k = (Ok rep, r') →
  has_error rep = true ∨ proofState rep = None →
  ∃ handles,
    length handles = length pre + 1
    ∧ check_proof send_command file_text line column (pre ++ tactic :: post) s0
      = (Ok None,
         {| repl := r';
            exchanges := exchanges s0 ++ Cmd file_text
                         :: zip_with Tactic (pre ++ [tactic]) handles |}).
Proof.
  intros Hsend Hfound Hfind Hsteps Hk Hbad.
  destruct (apply_tactics_steps _ _ _ _ _ _ _ Hsteps) as (handles & Hlen & Hrun).
  exists (handles ++ [ps_k]). split; [rewrite length_app; simpl; lia|].
  rewrite (check_proof_located _ _ _ _ _ _ _ _ _ Hsend Hfound Hfind).
  unfold mbind at 1. unfold M_bind at 1. rewrite Hrun. simpl.
  unfold mbind at 1. unfold M_bind at 1. unfold exchange. simpl. rewrite Hk.
  rewrite zip_with_app by done. simpl.
  rewrite <-!app_assoc. simpl.
  destruct Hbad as [-> | Hps]; [done|].
  rewrite Hps. by destruct (has_error rep).
Qed.

Lemma check_proof_all_steps file_text line column proof
    s0 rep0 r1 found sorry r' ps' rep' :
  send_command (Cmd file_text) (repl s0) = (Ok rep0, r1) →
  sorries rep0 = Some found →
  find_sorry line column found = Some sorry →
  steps send_command r1 (sorry_proofState sorry) rep0 proof r' ps' rep' →
  (check_proof send_command file_text line column proof s0).1
  = match goals rep' with
    | Some [] => Ok (Some (join_nl proof))
    | Some (_ :: _) => Ok None
    | None => Raise (KeyError "goals")
    end.
Proof.
  intros Hsend Hfound Hfind Hsteps.
  destruct (apply_tactics_steps _ _ _ _ _ _ _ Hsteps) as (handles & Hlen & Hrun).
  rewrite (check_proof_located _ _ _ _ _ _ _ _ _ Hsend Hfound Hfind).
  unfold mbind at 1. unfold M_bind at 1.
  specialize (Hrun [] [] (exchanges s0 ++ [Cmd file_text])).
  rewrite app_nil_r in Hrun. rewrite Hrun. simpl.
  unfold mbind at 1. unfold M_bind at 1. unfold lift at 1.
  by destruct (goals rep') as [[|g gs]|].
Qed.

(** C3.  When the obligation is located and every tactic of the candidate
    is applied successfully, [_check_proof] returns the newline-joined
    tactic sequence exactly when the last reply received reports no
    outstanding goal, and returns [None] when goals remain. *)
Theorem check_proof_accepts_iff_no_goals file_text line column proof
    s0 rep0 r1 found sorry r' ps' rep' :
  send_command (Cmd file_text) (repl s0) = (Ok rep0, r1) →
  sorries rep0 = Some found →
  find_sorry line column found = Some sorry →
  steps send_command r1 (sorry_proofState sorry) rep0 proof r' ps' rep' →
  ((check_proof send_command file_text line column proof s0).1
     = Ok (Some (join_nl proof))
   ↔ goals rep' = Some [])
  ∧ (∀ g gs, goals rep' = Some (g :: gs) →
       (check_proof send_command file_text line column proof s0).1 = Ok None).
Proof.
  intros Hsend Hfound Hfind Hsteps.
  rewrite (check_proof_all_steps _ _ _ _ _ _ _ _ _ _ _ _
             Hsend Hfound Hfind Hsteps).
  destruct (goals rep') as [[|g gs]|]; split; done.
Qed.

End verifier_claims.

(** C3, the one-tactic instance: the candidate [["rfl"]] for the sorry at
    line 3, column 4, against a REPL that reports no goal after that
    tactic, is accepted as ["rfl"]. *)
Lemma check_proof_accepts_rfl :
  let script := [load_reply [{| pos_line := 3; pos_column := 4;
                                sorry_proofState := 0 |}];
                 tactic_reply None (Some 1%Z) (Some [])] in
  (check_proof scripted (py "example : 2 + 2 = 4 := sorry") 3 4 [py "rfl"]
     {| repl := script; exchanges := [] |}).1
  = Ok (Some (py "rfl")).
Proof.
  intros script.
  eapply (check_proof_accepts_iff_no_goals scripted _ 3 4 [py "rfl"]
            {| repl := script; exchanges := [] |}).
  - reflexivity.
  - reflexivity.
  - reflexivity.
  - eapply steps_cons; [reflexivity..|]. apply steps_nil.
  - reflexivity.
Defined.

Lemma check_proof_fail_fast_witness :
  let script := [load_reply [{| pos_line := 3; pos_column := 4;
                                sorry_proofState := 0 |}];
                 tactic_reply None (Some 1%Z) (Some [py "p"; py "q"]);
                 tactic_reply (Some [{| severity := py "error";
                                        data := py "unknown tactic" |}])
                              (Some 2%Z) (Some [py "q"]);
                 tactic_reply None (Some 3%Z) (Some [])] in
  ∃ handles,
    length handles = 2
    ∧ check_proof scripted (py "theorem t : p = q := sorry") 3 4
        [py "constructor"; py "foo"; py "exact hq"]
        {| repl := script; exchanges := [] |}
      = (Ok None,
         {| repl := [tactic_reply None (Some 3%Z) (Some [])];
            exchanges := Cmd (py "theorem t : p = q := sorry")
                         :: zip_with Tactic [py "constructor"; py "foo"]
                                     handles |}).
Proof.
  intros script.
  eapply (check_proof_fail_fast scripted _ 3 4 [py "constructor"] (py "foo")
            [py "exact hq"] {| repl := script; exchanges := [] |}).
  - reflexivity.
  - reflexivity.
  - reflexivity.
  - eapply steps_cons; [reflexivity..|]. apply steps_nil.
  - reflexivity.
  - left. reflexivity.
Defined.

(** C4.  The empty candidate: after the (skipped) loop, [reply] is still the
    reply to the file load.  Against a REPL whose load reply has no ["goals"]
    key the look-up [reply["goals"]] raises [KeyError]; against one whose
    load reply carries an empty ["goals"] list the empty candidate is
    accepted as the empty string.  In neither case is [None] returned. *)
Theorem check_proof_empty_candidate :
  let entry := {| pos_line := 3; pos_column := 4; sorry_proofState := 0 |} in
  split_proof [] = Ok []
  ∧ (check_proof scripted (py "example : 2 + 2 = 4 := sorry") 3 4 []
       {| repl := [load_reply [entry]]; exchanges := [] |}).1
    = Raise (KeyError "goals")
  ∧ (check_proof scripted (py "example : 2 + 2 = 4 := sorry") 3 4 []
       {| repl := [{| sorries := Some [entry]; messages := None;
                      proofState := None; goals := Some [] |}];
          exchanges := [] |}).1
    = Ok (Some []).
Proof. split_and!; reflexivity. Qed.

(** ** Loops in the state-and-exception monad *)

Section for_each_facts.

Context {S A B : Type} (f : A → B → M S B).

Lemma for_each_raise pre x post b s b1 s1 e s2 :
  for_each f pre b s = (Ok b1, s1) →
  f x b1 s1 = (Raise e, s2) →
  for_each f (pre ++ x :: post) b s = (Raise e, s2).
Proof.
  revert b s. induction pre as [|y pre IH]; intros b s Hpre Hx; simpl in *.
  - injection Hpre as -> ->. unfold mbind, M_bind. by rewrite Hx.
  - unfold mbind, M_bind in *. destruct (f y b s) as [[b'|e'] s']; [|done].
    by apply IH.
Qed.

(** An invariant [I] of the loop body, with [J] what is left of it when the
    body raises, holds at the end of the loop. *)
Lemma for_each_invariant (I : B → S → Prop) (J : S → Prop) l :
  (∀ x b s, x ∈ l → I b s →
     match f x b s with (Ok b', s') => I b' s' | (Raise _, s') => J s' end) →
  ∀ b s, I b s →
    match for_each f l b s with
    | (Ok b', s') => I b' s'
    | (Raise _, s') => J s'
    end.
Proof.
  induction l as [|x l IH]; intros Hbody b s HI; simpl; [done|].
  unfold mbind, M_bind.
  pose proof (Hbody x b s ltac:(left) HI) as Hx.
  destruct (f x b s) as [[b'|e] s']; [|done].
  apply IH; [|done]. intros y b0 s0 Hy. apply Hbody. by right.
Qed.

End for_each_facts.

(** ** The client: what one attempt changes *)

Section client_facts.

Context {X R : Type}.
Variable invoke : str → X → result model_response * X.
Variable prepare : str → str → str → str → X → result R * X.
Variable read_text : str → X → result str.
Variable send_command : command → R → result reply * R.
Variable format_prompt : str → str → Z → Z → str.

Implicit Types (st : state X R) (s : sorry_record)
  (llm : gmap str (option str)).

Lemma solve_sorry_effect s st :
  let '(_, st') := solve_sorry invoke read_text send_command format_prompt s st in
  out_json st' = out_json st
  ∧ (generator_calls st' = generator_calls st
     ∨ generator_calls st' = generator_calls st ++ [s]).
Proof.
  unfold solve_sorry, mbind, M_bind.
  destruct (read_text (loc_file s) (world st)) as [file_text|e]; [|by auto].
  unfold note_generator_call, invoke_model. simpl.
  destruct (invoke _ (world st)) as [[response|e] w]; [|by auto]. simpl.
  unfold lift. destruct (split_proof (content response)) as [proof|e]; [|by auto].
  unfold with_repl. simpl.
  destruct (client_repl st) as [session|]; [|by auto].
  destruct (check_proof _ _ _ _ _ _) as [outcome session']. by auto.
Qed.

(** When the generator raises, so does [_solve_sorry]; only the world and
    the record of generator calls have changed. *)
Lemma solve_sorry_generator_raises s st file_text e w :
  read_text (loc_file s) (world st) = Ok file_text →
  invoke (prompt_for format_prompt s file_text) (world st) = (Raise e, w) →
  ∃ st', solve_sorry invoke read_text send_command format_prompt s st
         = (Raise e, st')
         ∧ out_json st' = out_json st
         ∧ generator_calls st' = generator_calls st ++ [s].
Proof.
  unfold prompt_for. intros Hread Hinvoke.
  unfold solve_sorry, mbind, M_bind. rewrite Hread.
  unfold note_generator_call, invoke_model. simpl. rewrite Hinvoke.
  eexists. split; [done|]. by split.
Qed.

Lemma attempt_raises s llm st e st' :
  solve_sorry invoke read_text send_command format_prompt s st = (Raise e, st') →
  attempt invoke read_text send_command format_prompt s llm st = (Raise e, st').
Proof. intros H. unfold attempt, mbind, M_bind. by rewrite H. Qed.

Lemma setup_repo_effect url b h v st :
  let '(_, st') := setup_repo prepare url b h v st in
  out_json st' = out_json st ∧ generator_calls st' = generator_calls st.
Proof. unfold setup_repo. by destruct (prepare _ _ _ _ _) as [[r|e] w]. Qed.

(** *** Which sorries are attempted *)

Section attempted.

Variable allowed : sorry_record → Prop.
Variable st0 : state X R.

Lemma keys_of_insert s outcome llm :
  allowed s → keys_of allowed llm → keys_of allowed (<[uuid s := outcome]> llm).
Proof.
  intros Hs Hllm u. destruct (decide (uuid s = u)) as [<-|Hne]; [by eauto|].
  rewrite lookup_insert_ne by done. apply Hllm.
Qed.

Lemma attempt_only_allowed s llm st :
  allowed s → only_allowed allowed st0 st → keys_of allowed llm →
  match attempt invoke read_text send_command format_prompt s llm st with
  | (Ok llm', st') => only_allowed allowed st0 st' ∧ keys_of allowed llm'
  | (Raise _, st') => only_allowed allowed st0 st'
  end.
Proof.
  intros Hs [(calls & Hcalls & Hall) Hjson] Hllm.
  pose proof (solve_sorry_effect s st) as Heff.
  unfold attempt, mbind, M_bind.
  destruct (solve_sorry _ _ _ _ _ _) as [[outcome|e] st'].
  - destruct Heff as [_ Hgen]. simpl.
    split; [|by apply keys_of_insert]. unfold only_allowed. simpl. split.
    + destruct Hgen as [-> | ->]; [by eauto|].
      exists (calls ++ [s]). rewrite Hcalls, <-app_assoc. split; [done|].
      apply Forall_app. by split; [|constructor].
    + right. eexists. split; [done|]. by apply keys_of_insert.
  - destruct Heff as [Hj Hgen]. split.
    + destruct Hgen as [-> | ->]; [by eauto|].
      exists (calls ++ [s]). rewrite Hcalls, <-app_assoc. split; [done|].
      apply Forall_app. by split; [|constructor].
    + by rewrite Hj.
Qed.

Lemma solve_commit_only_allowed url c llm st :
  (∀ s, s ∈ commit_sorries c → is_prop s → allowed s) →
  only_allowed allowed st0 st → keys_of allowed llm →
  match solve_commit invoke prepare read_text send_command format_prompt
          url c llm st with
  | (Ok llm', st') => only_allowed allowed st0 st' ∧ keys_of allowed llm'
  | (Raise _, st') => only_allowed allowed st0 st'
  end.
Proof.
  intros Hc Hst Hllm. unfold solve_commit.
  case_decide as Hnone; [done|].
  pose proof (setup_repo_effect url (branch c) (sha c) (lean_version c) st)
    as Hsetup.
  unfold mbind at 1. unfold M_bind at 1.
  destruct (setup_repo _ _ _ _ _ _) as [[[]|e] st1];
    destruct Hsetup as [Hj Hg];
    (assert (only_allowed allowed st0 st1) as Hst1
      by (unfold only_allowed; by rewrite Hj, Hg)); [|done].
  apply (for_each_invariant _ (λ llm st, only_allowed allowed st0 st ∧ keys_of allowed llm)
           (only_allowed allowed st0)); [|done].
  intros s llm' st' [Hprop Hin]%list_elem_of_filter [Hst' Hllm'].
  apply attempt_only_allowed; auto.
Qed.

Lemma solve_repo_only_allowed r llm st :
  (∀ c s, c ∈ commits r → s ∈ commit_sorries c → is_prop s → allowed s) →
  only_allowed allowed st0 st → keys_of allowed llm →
  match solve_repo invoke prepare read_text send_command format_prompt
          r llm st with
  | (Ok llm', st') => only_allowed allowed st0 st' ∧ keys_of allowed llm'
  | (Raise _, st') => only_allowed allowed st0 st'
  end.
Proof.
  intros Hr Hst Hllm. unfold solve_repo.
  apply (for_each_invariant _ (λ llm st, only_allowed allowed st0 st ∧ keys_of allowed llm)
           (only_allowed allowed st0)); [|done].
  intros c llm' st' Hc [Hst' Hllm'].
  apply solve_commit_only_allowed; eauto.
Qed.

End attempted.
End client_facts.

(** ** The orchestrator *)

Section orchestrator_claims.

Context {X R : Type}.
Variable invoke : str → X → result model_response * X.
Variable prepare : str → str → str → str → X → result R * X.
Variable read_text : str → X → result str.
Variable send_command : command → R → result reply * R.
Variable format_prompt : str → str → Z → Z → str.

Lemma elem_of_all_sorries repos r c s :
  r ∈ repos → c ∈ commits r → s ∈ commit_sorries c → s ∈ all_sorries repos.
Proof.
  intros Hr Hc Hs. unfold all_sorries.
  apply list_elem_of_bind. exists r. split; [|done].
  apply list_elem_of_bind. by exists c.
Qed.

(** C9, as the code has it.  During [solve_sorry_db] the generator is
    called only for sorries of the database whose [parentType] is
    ["Prop"], and every key of the result map the run persists is the
    identifier of such a sorry.  So a sorry whose [parentType] is not
    ["Prop"] gets no generator call, and, when its identifier is that of
    no ["Prop"] sorry of the database, the output file is left as it was
    or holds a map without an entry under that identifier. *)
Theorem only_prop_sorries_attempted repos (st0 : state X R) :
  let st' := (solve_sorry_db invoke prepare read_text send_command
                format_prompt repos st0).2 in
  (∃ calls, generator_calls st' = generator_calls st0 ++ calls
            ∧ Forall (λ s, s ∈ all_sorries repos ∧ is_prop s) calls)
  ∧ (out_json st' = out_json st0
     ∨ ∃ m, out_json st' = Some m
            ∧ ∀ u, is_Some (m !! u) →
                   ∃ s, (s ∈ all_sorries repos ∧ is_prop s) ∧ uuid s = u)
  ∧ (∀ s, ¬ is_prop s →
          (∀ calls, generator_calls st' = generator_calls st0 ++ calls →
                    s ∉ calls)
          ∧ ((∀ s', s' ∈ all_sorries repos → is_prop s' → uuid s' ≠ uuid s) →
             out_json st' = out_json st0
             ∨ ∃ m, out_json st' = Some m ∧ m !! uuid s = None)).
Proof.
  intros st'.
  set (allowed := λ s, s ∈ all_sorries repos ∧ is_prop s).
  assert (only_allowed allowed st0 st') as [Hcalls Hjson].
  { subst st'. unfold solve_sorry_db, mbind, M_bind.
    pose proof (for_each_invariant
      (solve_repo invoke prepare read_text send_command format_prompt)
      (λ llm st, only_allowed allowed st0 st ∧ keys_of allowed llm)
      (only_allowed allowed st0) repos) as Hinv.
    assert (only_allowed allowed st0 st0 ∧ keys_of allowed ∅) as Hinit.
    { split.
      - split; [exists []; by rewrite app_nil_r|by left].
      - intros u [v Hv]. by rewrite lookup_empty in Hv. }
    specialize (Hinv) with (2 := Hinit).
    destruct (for_each _ repos ∅ st0) as [[llm|e] st1]; simpl.
    - apply Hinv. intros r llm' st2 Hr [Hst2 Hllm'].
      apply solve_repo_only_allowed; [|done..].
      intros c s Hc Hs Hprop. split; [|done]. by eapply elem_of_all_sorries.
    - apply Hinv. intros r llm' st2 Hr [Hst2 Hllm'].
      apply solve_repo_only_allowed; [|done..].
      intros c s Hc Hs Hprop. split; [|done]. by eapply elem_of_all_sorries. }
  split_and!; [done..|].
  intros s Hnot. split.
  - intros calls Heq. destruct Hcalls as (calls' & Heq' & Hall).
    rewrite Heq' in Heq. apply app_inv_head in Heq as ->.
    intros Hin. rewrite Forall_forall in Hall. by destruct (Hall _ Hin).
  - intros Huniq. destruct Hjson as [Hsame | (m & Hm & Hkeys)]; [by left|].
    right. exists m. split; [done|].
    destruct (m !! uuid s) as [outcome|] eqn:Hlook; [|done].
    destruct (Hkeys (uuid s)) as (s' & [Hin Hprop] & Hid); [by eauto|].
    by destruct (Huniq s' Hin Hprop).
Qed.

(** C1, as the code has it.  Nothing catches an exception of the generator:
    when the model call for one obligation raises, [solve_sorry_db] raises
    the same exception at that point.  The output file is left as the
    obligations before it wrote it, so the failing obligation gets no entry
    from this attempt, and the failing call is the last generator call of
    the run: no later obligation is attempted. *)
Theorem generator_failure_aborts_run
    repos_done url commits_done c commits_left repos_left
    sorries_done sorry sorries_left
    (st0 st1 st2 st3 st4 : state X R) llm1 llm2 llm3 file_text e w :
  filter is_prop (commit_sorries c) = sorries_done ++ sorry :: sorries_left →
  for_each (solve_repo invoke prepare read_text send_command format_prompt)
    repos_done ∅ st0 = (Ok llm1, st1) →
  for_each (solve_commit invoke prepare read_text send_command format_prompt url)
    commits_done llm1 st1 = (Ok llm2, st2) →
  setup_repo prepare url (branch c) (sha c) (lean_version c) st2
  = (Ok (), st3) →
  for_each (attempt invoke read_text send_command format_prompt)
    sorries_done llm2 st3 = (Ok llm3, st4) →
  read_text (loc_file sorry) (world st4) = Ok file_text →
  invoke (prompt_for format_prompt sorry file_text) (world st4) = (Raise e, w) →
  ∃ st',
    solve_sorry_db invoke prepare read_text send_command format_prompt
      (repos_done
       ++ {| remote_url := url; commits := commits_done ++ c :: commits_left |}
       :: repos_left) st0
    = (Raise e, st')
    ∧ out_json st' = out_json st4
    ∧ generator_calls st' = generator_calls st4 ++ [sorry].
Proof.
  intros Hsorries Hrepos Hcommits Hsetup Hdone Hread Hinvoke.
  destruct (solve_sorry_generator_raises invoke read_text send_command
              format_prompt sorry st4 file_text e w Hread Hinvoke)
    as (st' & Hsolve & Hjson & Hcalls).
  exists st'. split; [|done].
  pose proof (attempt_raises invoke read_text send_command format_prompt
                sorry llm3 st4 e st' Hsolve) as Hattempt.
  pose proof (for_each_raise _ _ _ sorries_left _ _ _ _ _ _ Hdone Hattempt)
    as Hloop.
  assert (solve_commit invoke prepare read_text send_command format_prompt
            url c llm2 st2 = (Raise e, st')) as Hcommit.
  { unfold solve_commit. rewrite Hsorries.
    rewrite decide_False by (by destruct sorries_done).
    unfold mbind, M_bind. by rewrite Hsetup. }
  pose proof (for_each_raise _ _ _ commits_left _ _ _ _ _ _ Hcommits Hcommit)
    as Hrepo.
  unfold solve_sorry_db, mbind, M_bind.
  by rewrite (for_each_raise _ repos_done
                {| remote_url := url;
                   commits := commits_done ++ c :: commits_left |}
                repos_left ∅ st0 llm1 st1 e st' Hrepos Hrepo).
Qed.

End orchestrator_claims.

(** C1, counterexample.  Two ["Prop"] sorries; the model call for the first
    raises.  The run ends with that exception: the output file is never
    written (the first sorry is not recorded as unsolved) and the second
    sorry is never attempted, although the model would have answered. *)
Lemma generator_failure_not_survived :
  let outcome :=
    Example.run [Raise (ExternalError "overloaded"); Ok Example.rfl_response]
                [Example.s1; Example.s2] in
  outcome.1 = Raise (ExternalError "overloaded")
  ∧ out_json outcome.2 = None
  ∧ generator_calls outcome.2 = [Example.s1]
  ∧ world outcome.2 = [Ok Example.rfl_response].
Proof. vm_compute. by split_and!. Qed.

Lemma generator_failure_aborts_run_witness :
  let outcome :=
    Example.run [Ok Example.rfl_response; Raise (ExternalError "overloaded")]
                [Example.s1; Example.s2] in
  outcome.1 = Raise (ExternalError "overloaded")
  ∧ out_json outcome.2 = Some {[ py "u1" := Some (py "rfl") ]}
  ∧ generator_calls outcome.2 = [Example.s1; Example.s2].
Proof.
  intros outcome.
  set (st0 := Script.initial
                [Ok Example.rfl_response; Raise (ExternalError "overloaded")]).
  set (st3 := (setup_repo (Script.prepare Example.repl_script)
                 (py "https://example.org/r.git") (py "main") (py "abc")
                 (py "v4.16.0") st0).2).
  set (done1 := for_each (attempt Script.invoke (Script.read_text Example.file_text)
                            scripted Script.format_prompt)
                  [Example.s1] ∅ st3).
  destruct (generator_failure_aborts_run Script.invoke
              (Script.prepare Example.repl_script)
              (Script.read_text Example.file_text) scripted
              Script.format_prompt
              [] (py "https://example.org/r.git") []
              {| branch := py "main"; sha := py "abc";
                 lean_version := py "v4.16.0";
                 commit_sorries := [Example.s1; Example.s2] |} [] []
              [Example.s1] Example.s2 []
              st0 st0 st0 st3 done1.2 ∅ ∅
              {[ py "u1" := Some (py "rfl") ]}
              Example.file_text (ExternalError "overloaded") [])
    as (st' & Hrun & Hjson & Hcalls).
  - reflexivity.
  - reflexivity.
  - reflexivity.
  - reflexivity.
  - vm_compute. reflexivity.
  - reflexivity.
  - reflexivity.
  - assert (outcome = (Raise (ExternalError "overloaded"), st')) as ->
      by exact Hrun.
    simpl. rewrite Hjson, Hcalls. vm_compute. by split_and!.
Defined.

Lemma only_prop_sorries_attempted_witness :
  let outcome := Example.run [Ok Example.rfl_response]
                             [Example.s1; Example.s3] in
  (Example.s3 ∉ generator_calls outcome.2)
  ∧ ∃ m, out_json outcome.2 = Some m ∧ m !! uuid Example.s3 = None.
Proof.
  intros outcome.
  destruct (only_prop_sorries_attempted Script.invoke
              (Script.prepare Example.repl_script)
              (Script.read_text Example.file_text) scripted
              Script.format_prompt
              (Script.one_commit [Example.s1; Example.s3])
              (Script.initial [Ok Example.rfl_response]))
    as (_ & _ & Hnever).
  destruct (Hnever Example.s3) as [Hcalls Hfile].
  { vm_compute. intros [=]. }
  split.
  - apply Hcalls. reflexivity.
  - destruct Hfile as [Hsame|Hentry].
    + intros s' Hin Hprop. apply list_elem_of_In in Hin. simpl in Hin.
      destruct Hin as [<-|[<-|[]]]; [by vm_compute|].
      revert Hprop. vm_compute. intros [=].
    + exfalso. revert Hsame. vm_compute. intros [=].
    + exact Hentry.
Defined.

(** C9, counterexample.  A sorry whose [parentType] is not ["Prop"] but
    whose identifier is also that of a ["Prop"] sorry: it is not attempted,
    yet the persisted result map has an entry under its identifier. *)
Lemma non_prop_sorry_with_shared_uuid :
  let outcome := Example.run [Ok Example.rfl_response]
                             [Example.s1; Example.s4] in
  ¬ is_prop Example.s4
  ∧ Example.s4 ∈ all_sorries (Script.one_commit [Example.s1; Example.s4])
  ∧ outcome.1 = Ok ()
  ∧ generator_calls outcome.2 = [Example.s1]
  ∧ ∃ m, out_json outcome.2 = Some m
         ∧ m !! uuid Example.s4 = Some (Some (py "rfl")).
Proof.
  intros outcome. split_and!.
  - vm_compute. intros [=].
  - apply list_elem_of_In. simpl. auto.
  - reflexivity.
  - reflexivity.
  - eexists. split; [reflexivity|]. vm_compute. reflexivity.
Defined.

(** What that run does: the ["Prop"] sorry is solved and recorded, the other
    one is absent from the output. *)
Lemma only_prop_sorries_attempted_run :
  let outcome := Example.run [Ok Example.rfl_response]
                             [Example.s1; Example.s3] in
  outcome.1 = Ok ()
  ∧ out_json outcome.2 = Some {[ py "u1" := Some (py "rfl") ]}
  ∧ generator_calls outcome.2 = [Example.s1].
Proof. vm_compute. by split_and!. Qed.

(** ** More on the splitter: failures, shape, blank lines, indentation *)

Section splitter_more.

Implicit Types (proof line first ws : str) (lines rest ts : list str).

Lemma lstrip_nil_iff line :
  lstrip line = [] ↔ Forall (λ c, isspace c = true) line.
Proof.
  induction line as [|c line IH]; simpl; [by split|].
  destruct (isspace c) eqn:Hc.
  - rewrite IH. split; [by constructor|by inversion 1].
  - split; [done|]. inversion 1; congruence.
Qed.

Lemma lstrip_cons_inv line c line' :
  lstrip line = c :: line' → isspace c = false.
Proof.
  induction line as [|c0 line IH]; simpl; [done|].
  destruct (isspace c0) eqn:Hc; [done|]. by intros [= <- _].
Qed.

Lemma is_blank_lstrip line : is_blank line = true ↔ lstrip line = [].
Proof.
  unfold is_blank, strip, rstrip. rewrite bool_decide_eq_true. split.
  - intros Hrev. apply (f_equal (@rev N)) in Hrev.
    rewrite rev_involutive in Hrev.
    simpl in Hrev. apply lstrip_nil_iff in Hrev.
    destruct (lstrip line) as [|c line'] eqn:Hl; [done|].
    apply lstrip_cons_inv in Hl.
    apply List.Forall_rev in Hrev. rewrite rev_involutive in Hrev.
    inversion Hrev; congruence.
  - by intros ->.
Qed.

Lemma is_blank_app_spaces ws line :
  Forall (λ c, isspace c = true) ws → is_blank (ws ++ line) = is_blank line.
Proof. intros Hws. unfold is_blank, strip. by rewrite lstrip_spaces_app. Qed.

Lemma indent_app_spaces ws line :
  Forall (λ c, isspace c = true) ws →
  indent (ws ++ line) = length ws + indent line.
Proof.
  intros Hws. unfold indent. rewrite lstrip_spaces_app, length_app by done.
  pose proof (lstrip_length line). lia.
Qed.

(** The first non-blank line of a text always starts an entry when the base
    indentation is its own. *)
Lemma indent_normalize_own line :
  is_blank line = false → indent (normalize_line (indent line) line) = 0.
Proof.
  intros Hb. unfold normalize_line, strip_base.
  rewrite <-lstrip_drop_indent.
  destruct (lstrip line) as [|c line'] eqn:Hl.
  { apply is_blank_lstrip in Hl. congruence. }
  apply lstrip_cons_inv in Hl. unfold strip_terminator.
  destruct (endswith_semicolon _); [|by apply indent_0_cons].
  destruct line' as [|c' line']; [done|].
  change (removelast (c :: c' :: line')) with (c :: removelast (c' :: line')).
  by apply indent_0_cons.
Qed.

Lemma append_to_last_Ok_inv tactics line tactics' :
  append_to_last tactics line = Ok tactics' → tactics' ≠ [].
Proof.
  destruct tactics as [|t tactics _] using rev_ind; [done|].
  rewrite append_to_last_snoc. intros [= <-]. by destruct tactics.
Qed.

(** The loop raises only when a continuation line comes before any entry. *)
Lemma split_loop_Raise_inv base lines tactics e :
  split_loop base lines tactics = Raise e →
  e = IndexError ∧ tactics = []
  ∧ ∃ blanks line rest,
      lines = blanks ++ line :: rest
      ∧ Forall (λ l, is_blank l = true) blanks
      ∧ is_blank line = false
      ∧ indent (normalize_line base line) ≠ 0.
Proof.
  revert tactics. induction lines as [|l lines IH]; intros tactics; simpl; [done|].
  destruct (is_blank l) eqn:Hb.
  { intros (-> & -> & blanks & line & rest & -> & ? & ? & ?)%IH.
    split_and!; [done..|]. exists (l :: blanks), line, rest.
    split_and!; [done| |done..]. by constructor. }
  case_decide as Hi.
  { intros (_ & Hnil & _)%IH. by destruct tactics. }
  destruct (append_to_last tactics _) as [tactics'|e'] eqn:Happ; simpl.
  { intros (_ & -> & _)%IH. by apply append_to_last_Ok_inv in Happ. }
  destruct tactics as [|t tactics _] using rev_ind.
  - simpl in Happ. injection Happ as <-. intros [= <-].
    split_and!; [done..|]. exists [], l, lines. by split_and!.
  - by rewrite append_to_last_snoc in Happ.
Qed.

Lemma drop_introducer_Ok lines :
  lines ≠ [] → ∃ lines', drop_introducer lines = Ok lines'.
Proof. destruct lines as [|l lines]; [done|]. intros _. simpl. eauto. Qed.

(** X1.  The only exception [_split_proof] raises is [IndexError], and only
    in two situations: no line is left after the introducer was dropped, or
    the first non-blank remaining line is indented relative to the first
    remaining line. *)
Theorem split_proof_raises_only_IndexError proof e :
  split_proof proof = Raise e →
  e = IndexError
  ∧ ∃ lines,
      drop_introducer (split_nl proof) = Ok lines
      ∧ (lines = []
         ∨ ∃ blanks line rest,
             lines = blanks ++ line :: rest
             ∧ Forall (λ l, is_blank l = true) blanks
             ∧ is_blank line = false
             ∧ indent (normalize_line (indent (default [] (head lines))) line)
               ≠ 0).
Proof.
  unfold split_proof.
  destruct (drop_introducer_Ok (split_nl proof) (split_nl_nonempty proof))
    as [lines ->].
  simpl. unfold split_lines. destruct lines as [|l0 lines].
  { intros [= <-]. split; [done|]. exists []. by split; [|left]. }
  intros (-> & _ & Hcont)%split_loop_Raise_inv.
  split; [done|]. exists (l0 :: lines). split; [done|]. by right.
Qed.

Lemma split_proof_raises_only_IndexError_witness :
  let proof := text ["by"; EmptyString; "  simp"] in
  split_proof proof = Raise IndexError
  ∧ ∃ lines,
      drop_introducer (split_nl proof) = Ok lines
      ∧ (lines = []
         ∨ ∃ blanks line rest,
             lines = blanks ++ line :: rest
             ∧ Forall (λ l, is_blank l = true) blanks
             ∧ is_blank line = false
             ∧ indent (normalize_line (indent (default [] (head lines))) line)
               ≠ 0).
Proof.
  intros proof. split; [reflexivity|].
  assert (split_proof proof = Raise IndexError) as Hraise by reflexivity.
  exact (proj2 (split_proof_raises_only_IndexError proof IndexError Hraise)).
Defined.

(** X2.  Whenever the first remaining line is not blank, [_split_proof]
    returns a list, and that list is not empty. *)
Theorem split_proof_returns_on_nonblank_first proof first rest :
  drop_introducer (split_nl proof) = Ok (first :: rest) →
  is_blank first = false →
  ∃ t ts, split_proof proof = Ok (t :: ts).
Proof.
  intros Hdrop Hfirst.
  pose proof (indent_normalize_own first Hfirst) as Hown.
  pose proof (drop_introducer_no_newline _ _ Hdrop) as Hnl.
  rewrite (split_proof_lines _ _ first Hdrop) by done.
  destruct (split_loop (indent first) (first :: rest) []) as [ts|e] eqn:Hrun.
  - destruct (split_loop_invariant _ _ _ _ Hnl Hrun) as [Hlines _].
    rewrite filter_cons, decide_True in Hlines by done.
    destruct ts as [|t ts]; [done|]. eauto.
  - apply split_loop_Raise_inv in Hrun
      as (_ & _ & blanks & line & rest' & Heq & Hblanks & Hline & Hind).
    destruct blanks as [|b blanks]; simplify_eq/=.
    inversion_clear Hblanks. congruence.
Qed.

Lemma split_proof_returns_on_nonblank_first_witness :
  ∃ t ts, split_proof (text ["by"; "    ;"; "x"]) = Ok (t :: ts).
Proof.
  apply (split_proof_returns_on_nonblank_first _ (py "    ;") [py "x"]);
    reflexivity.
Defined.

(** The number of entries the loop adds: one per non-blank line that has no
    indentation left after normalization. *)
Lemma split_loop_length base lines tactics ts :
  split_loop base lines tactics = Ok ts →
  length ts
  = length tactics
    + length (filter (λ l, indent l = 0)
                (normalize_line base <$> filter (λ l, is_blank l = false) lines)).
Proof.
  revert tactics. induction lines as [|l lines IH]; intros tactics; simpl.
  { intros [= <-]. simpl. lia. }
  rewrite (filter_cons (λ l, is_blank l = false)). destruct (is_blank l) eqn:Hb.
  { rewrite (decide_False (P := true = false)) by done. apply IH. }
  rewrite (decide_True (P := false = false)) by done.
  rewrite fmap_cons, filter_cons. case_decide as Hi.
  - intros ->%IH. rewrite length_app. simpl. lia.
  - destruct tactics as [|t tactics _] using rev_ind; [done|].
    rewrite append_to_last_snoc. simpl. intros ->%IH.
    rewrite !length_app. simpl. lia.
Qed.

(** X3.  The shape of what [_split_proof] returns: every tactic starts with
    an unindented line and continues with indented lines only, and there is
    one tactic per non-blank remaining line that, cut at the base
    indentation and without its terminator, is unindented. *)
Theorem split_proof_output_shape proof lines first ts :
  drop_introducer (split_nl proof) = Ok lines → head lines = Some first →
  split_proof proof = Ok ts →
  Forall tactic_shape ts
  ∧ length ts
    = length (filter (λ l, indent l = 0)
                (normalize_line (indent first)
                 <$> filter (λ l, is_blank l = false) lines)).
Proof.
  intros Hdrop Hhead Hrun. split; [by eapply split_proof_shape|].
  rewrite (split_proof_lines _ _ _ Hdrop Hhead) in Hrun.
  by apply split_loop_length in Hrun.
Qed.

Lemma split_proof_output_shape_witness :
  let ts := [text ["rw [foo,"; "  bar]"]; py "rfl"] in
  Forall tactic_shape ts ∧ length ts = 2.
Proof.
  intros ts.
  destruct (split_proof_output_shape
              (text ["by"; "  rw [foo,"; "    bar];"; EmptyString; "  rfl"])
              (py <$> ["  rw [foo,"; "    bar];"; EmptyString; "  rfl"])
              (py "  rw [foo,") ts) as [Hshape Hlen]; [reflexivity..|].
  split; [exact Hshape|exact Hlen].
Defined.

End splitter_more.

Section splitter_layout.

Implicit Types (proof line first ws : str) (lines rest ts : list str).

Lemma entry_lines_lines lines :
  Forall (λ l, newline ∉ l) lines → entry_lines lines = lines.
Proof.
  induction 1 as [|l lines Hl _ IH]; [done|].
  change (entry_lines (l :: lines)) with (split_nl l ++ entry_lines lines).
  by rewrite split_nl_line, IH.
Qed.

Lemma split_nl_join_lines lines :
  lines ≠ [] → Forall (λ l, newline ∉ l) lines →
  split_nl (join_nl lines) = lines.
Proof. intros Hne Hnl. by rewrite split_nl_join_nl, entry_lines_lines. Qed.

Lemma split_loop_filter_blank base lines tactics :
  split_loop base (filter (λ l, is_blank l = false) lines) tactics
  = split_loop base lines tactics.
Proof.
  revert tactics. induction lines as [|l lines IH]; intros tactics; [done|].
  rewrite filter_cons. simpl. destruct (is_blank l) eqn:Hb.
  { rewrite (decide_False (P := true = false)) by done. apply IH. }
  rewrite (decide_True (P := false = false)) by done. simpl. rewrite Hb.
  case_decide; [apply IH|].
  destruct (append_to_last tactics _); simpl; [apply IH|done].
Qed.

Lemma split_lines_filter_blank first rest :
  split_lines (first :: filter (λ l, is_blank l = false) rest)
  = split_lines (first :: rest).
Proof.
  unfold split_lines. simpl. destruct (is_blank first).
  { apply split_loop_filter_blank. }
  case_decide; [apply split_loop_filter_blank|done].
Qed.

Lemma drop_introducer_keeps first rest :
  strip first ≠ by_token → drop_introducer (first :: rest) = Ok (first :: rest).
Proof. intros Hby. unfold drop_introducer. simpl. by rewrite decide_False. Qed.

(** X4.  Blank lines after the first line do not matter: unless the first
    line is the introducer, removing them from the text leaves the result
    unchanged. *)
Theorem split_proof_ignores_blank_lines first rest :
  newline ∉ first → Forall (λ l, newline ∉ l) rest →
  strip first ≠ by_token →
  split_proof (join_nl (first :: filter (λ l, is_blank l = false) rest))
  = split_proof (join_nl (first :: rest)).
Proof.
  intros Hfirst Hrest Hby. unfold split_proof.
  rewrite !split_nl_join_lines; [|done|by constructor|done|].
  - rewrite !drop_introducer_keeps by done. simpl.
    apply split_lines_filter_blank.
  - constructor; [done|]. apply Forall_forall. intros l [_ Hl]%list_elem_of_filter.
    rewrite Forall_forall in Hrest. by apply Hrest.
Qed.

Lemma split_proof_ignores_blank_lines_witness :
  split_proof (text ["intro x"; "exact h"])
  = split_proof (text ["intro x"; EmptyString; "   "; "exact h"; EmptyString]).
Proof.
  exact (split_proof_ignores_blank_lines (py "intro x")
           (py <$> [EmptyString; "   "; "exact h"; EmptyString])
           ltac:(by apply (bool_decide_unpack _))
           ltac:(by apply (bool_decide_unpack _))
           ltac:(by apply (bool_decide_unpack _))).
Defined.

(** X5.  A text all of whose lines are blank gives the empty list of
    tactics. *)
Theorem split_proof_blank_text lines :
  lines ≠ [] → Forall (λ l, newline ∉ l) lines →
  Forall (λ l, is_blank l = true) lines →
  split_proof (join_nl lines) = Ok [].
Proof.
  intros Hne Hnl Hblank. unfold split_proof.
  rewrite split_nl_join_lines by done.
  destruct lines as [|first rest]; [done|].
  inversion_clear Hblank as [|?? Hfirst Hrest].
  rewrite drop_introducer_keeps.
  - simpl. unfold split_lines. simpl. rewrite Hfirst. clear Hne Hnl.
    induction Hrest as [|l rest Hl _ IH]; simpl; [done|]. by rewrite Hl.
  - unfold is_blank in Hfirst. apply bool_decide_eq_true in Hfirst.
    by rewrite Hfirst.
Qed.

Lemma split_proof_blank_text_witness :
  split_proof (text ["  "; EmptyString; "    "]) = Ok [].
Proof.
  apply (split_proof_blank_text (py <$> ["  "; EmptyString; "    "])).
  - done.
  - by apply (bool_decide_unpack _).
  - by repeat constructor.
Defined.

Lemma strip_app_spaces ws line :
  Forall (λ c, isspace c = true) ws → strip (ws ++ line) = strip line.
Proof. intros Hws. unfold strip. by rewrite lstrip_spaces_app. Qed.

Lemma split_loop_indented ws base lines tactics :
  Forall (λ c, isspace c = true) ws →
  split_loop (length ws + base) ((ws ++.) <$> lines) tactics
  = split_loop base lines tactics.
Proof.
  intros Hws. revert tactics.
  induction lines as [|l lines IH]; intros tactics; simpl; [done|].
  rewrite is_blank_app_spaces by done.
  destruct (is_blank l); [apply IH|].
  assert (normalize_line (length ws + base) (ws ++ l) = normalize_line base l)
    as ->.
  { unfold normalize_line, strip_base. by rewrite drop_app_add. }
  case_decide; [apply IH|].
  destruct (append_to_last tactics _); simpl; [apply IH|done].
Qed.

(** X6.  Base indentation is really removed: indenting every line of a text
    by the same white space (other than newlines) does not change the
    result. *)
Theorem split_proof_indentation_invariant ws lines :
  lines ≠ [] → Forall (λ l, newline ∉ l) lines →
  Forall (λ c, isspace c = true) ws → newline ∉ ws →
  split_proof (join_nl ((ws ++.) <$> lines)) = split_proof (join_nl lines).
Proof.
  intros Hne Hnl Hws Hwsnl. unfold split_proof.
  rewrite !split_nl_join_lines; [|done..| |].
  - destruct lines as [|first rest]; [done|].
    unfold drop_introducer. simpl. rewrite strip_app_spaces by done.
    assert (∀ ls, split_lines ((ws ++.) <$> ls) = split_lines ls) as Hlines.
    { intros [|l ls]; [done|]. unfold split_lines. simpl index0. simpl mbind.
      rewrite indent_app_spaces by done.
      apply (split_loop_indented ws (indent l) (l :: ls)). done. }
    case_decide; simpl.
    + rewrite !drop_0. apply Hlines.
    + apply (Hlines (first :: rest)).
  - by destruct lines.
  - apply Forall_fmap, Forall_forall. intros l Hl. simpl.
    rewrite Forall_forall in Hnl. rewrite elem_of_app.
    intros [?|?]; [done|]. by eapply Hnl.
Qed.

Lemma split_proof_indentation_invariant_witness :
  split_proof (text ["      rw [foo,"; "        bar]"; "      rfl"])
  = split_proof (text ["  rw [foo,"; "    bar]"; "  rfl"]).
Proof.
  set (lines := py <$> ["  rw [foo,"; "    bar]"; "  rfl"]).
  assert (lines ≠ []) as Hne by done.
  assert (Forall (λ l, newline ∉ l) lines) as Hnl
    by (by apply (bool_decide_unpack _)).
  assert (Forall (λ c, isspace c = true) (py "    ")) as Hws
    by (by repeat constructor).
  assert (newline ∉ py "    ") as Hwsnl by (by apply (bool_decide_unpack _)).
  exact (split_proof_indentation_invariant (py "    ") lines
           Hne Hnl Hws Hwsnl).
Defined.

End splitter_layout.

(** ** More on the verifier: requests sent, acceptance, failures *)

Section verifier_more.

Context {R : Type} (send_command : command → R → result reply * R).

Implicit Types (r : R) (s : session R) (rep : reply) (proof : list str).

Lemma apply_tactics_requests proof ps rep complete s :
  ∃ k handles,
    k ≤ length proof ∧ length handles = k
    ∧ exchanges (apply_tactics send_command proof ps rep complete s).2
      = exchanges s ++ zip_with Tactic (take k proof) handles.
Proof.
  revert ps rep complete s.
  induction proof as [|tactic rest IH]; intros ps rep complete s; simpl.
  { exists 0, []. by rewrite app_nil_r. }
  assert (∃ k handles, k ≤ S (length rest) ∧ length handles = k
            ∧ exchanges s ++ [Tactic tactic ps]
              = exchanges s ++ zip_with Tactic (take k (tactic :: rest)) handles)
    as Hone by (exists 1, [ps]; split_and!; [lia|done..]).
  unfold mbind, M_bind, exchange.
  destruct (send_command (Tactic tactic ps) (repl s)) as [[rep1|e] r1];
    [|done].
  destruct (has_error rep1); [done|].
  destruct (proofState rep1) as [ps1|]; [|done].
  destruct (IH ps1 rep1 (complete ++ [tactic])
              {| repl := r1; exchanges := exchanges s ++ [Tactic tactic ps] |})
    as (k & handles & Hk & Hlen & ->).
  exists (S k), (ps :: handles). split_and!; [lia|simpl; lia|].
  simpl. by rewrite <-app_assoc.
Qed.

(** X7.  Whatever the REPL answers, the requests [_check_proof] submits are
    the file load followed by the tactics of an initial segment of the
    candidate, in order: one load, at most one request per tactic, never a
    tactic before an earlier one. *)
Theorem check_proof_requests file_text line column proof s0 :
  ∃ k handles,
    k ≤ length proof ∧ length handles = k
    ∧ exchanges (check_proof send_command file_text line column proof s0).2
      = exchanges s0
        ++ Cmd file_text :: zip_with Tactic (take k proof) handles.
Proof.
  assert (∃ k handles, k ≤ length proof ∧ length handles = k
            ∧ exchanges s0 ++ [Cmd file_text]
              = exchanges s0
                ++ Cmd file_text :: zip_with Tactic (take k proof) handles)
    as Hnone by (exists 0, []; split_and!; [lia|done..]).
  unfold check_proof.
  unfold mbind at 1. unfold M_bind at 1. unfold exchange.
  destruct (send_command (Cmd file_text) (repl s0)) as [[rep0|e] r1]; [|done].
  unfold mbind at 1. unfold M_bind at 1. unfold lift at 1.
  destruct (sorries rep0) as [found|]; [|done]. simpl.
  destruct (find_sorry line column found) as [sorry|]; [|done].
  destruct (apply_tactics_requests proof (sorry_proofState sorry) rep0 []
              {| repl := r1; exchanges := exchanges s0 ++ [Cmd file_text] |})
    as (k & handles & Hk & Hlen & Hreq).
  exists k, handles. split_and!; [done..|].
  unfold mbind, M_bind.
  destruct (apply_tactics _ _ _ _ _ _) as [[[|rep' complete]|e] s1];
    simpl in *; try by rewrite Hreq, <-app_assoc.
  unfold lift. destruct (goals rep') as [gs|]; simpl;
    [case_decide; simpl|]; by rewrite Hreq, <-app_assoc.
Qed.

Lemma apply_tactics_Exhausted_inv proof ps rep complete s rep' complete' s' :
  apply_tactics send_command proof ps rep complete s
  = (Ok (Exhausted rep' complete'), s') →
  complete' = complete ++ proof
  ∧ length (exchanges s') = length (exchanges s) + length proof
  ∧ ∃ ps', steps send_command (repl s) ps rep proof (repl s') ps' rep'.
Proof.
  revert ps rep complete s.
  induction proof as [|tactic rest IH]; intros ps rep complete s; simpl.
  { intros [= <- <- <-]. rewrite app_nil_r. split_and!; [done|lia|].
    exists ps. constructor. }
  unfold mbind, M_bind, exchange.
  destruct (send_command (Tactic tactic ps) (repl s)) as [[rep1|e] r1] eqn:Hsend;
    [|done].
  destruct (has_error rep1) eqn:Herr; [done|].
  destruct (proofState rep1) as [ps1|] eqn:Hps; [|done].
  intros (-> & Hlen & ps' & Hsteps)%IH. simpl in *.
  split_and!; [by rewrite <-app_assoc|rewrite Hlen, length_app; simpl; lia|].
  exists ps'. by eapply steps_cons.
Qed.

(** X8.  Acceptance is sound: when [_check_proof] returns a proof, it is
    the whole candidate, newline-joined; the obligation was located; every
    tactic was submitted and got a reply without error diagnostic and with a
    new proof state; and the last reply reports no goal. *)
Theorem check_proof_accepted_inv file_text line column proof s0 accepted s' :
  check_proof send_command file_text line column proof s0
  = (Ok (Some accepted), s') →
  accepted = join_nl proof
  ∧ length (exchanges s') = length (exchanges s0) + 1 + length proof
  ∧ ∃ rep0 r1 found sorry ps' rep',
      send_command (Cmd file_text) (repl s0) = (Ok rep0, r1)
      ∧ sorries rep0 = Some found
      ∧ find_sorry line column found = Some sorry
      ∧ steps send_command r1 (sorry_proofState sorry) rep0 proof
          (repl s') ps' rep'
      ∧ goals rep' = Some [].
Proof.
  unfold check_proof.
  unfold mbind at 1. unfold M_bind at 1. unfold exchange.
  destruct (send_command (Cmd file_text) (repl s0)) as [[rep0|e] r1] eqn:Hsend;
    [|done].
  unfold mbind at 1. unfold M_bind at 1. unfold lift at 1.
  destruct (sorries rep0) as [found|] eqn:Hfound; [|done]. simpl.
  destruct (find_sorry line column found) as [sorry|] eqn:Hfind; [|done].
  unfold mbind at 1. unfold M_bind at 1.
  destruct (apply_tactics _ _ _ _ _ _) as [[[|rep' complete]|e] s1] eqn:Hrun;
    [done| |done].
  apply apply_tactics_Exhausted_inv in Hrun as (-> & Hlen & ps' & Hsteps).
  unfold mbind, M_bind, lift.
  destruct (goals rep') as [gs|] eqn:Hgoals; [|done]. simpl.
  case_decide as Hgs; [|done]. intros [= <- <-]. subst gs.
  split_and!; [done|..].
  - rewrite Hlen. simpl. rewrite length_app. simpl. lia.
  - exists rep0, r1, found, sorry, ps', rep'. by split_and!.
Qed.

Lemma find_sorry_None line column found :
  Forall (λ entry, ¬ (pos_line entry = line ∧ pos_column entry = column))
    found →
  find_sorry line column found = None.
Proof.
  unfold find_sorry. induction 1 as [|entry found Hs _ IH]; simpl; [done|].
  by rewrite bool_decide_eq_false_2.
Qed.

(** X9.  Location mismatch: when the load reply lists sorries but none at
    exactly the given line and column, [_check_proof] returns [None] and the
    file load is the only request submitted: no tactic is sent. *)
Theorem check_proof_not_found file_text line column proof s0 rep0 r1 found :
  send_command (Cmd file_text) (repl s0) = (Ok rep0, r1) →
  sorries rep0 = Some found →
  Forall (λ entry, ¬ (pos_line entry = line ∧ pos_column entry = column))
    found →
  check_proof send_command file_text line column proof s0
  = (Ok None, {| repl := r1; exchanges := exchanges s0 ++ [Cmd file_text] |}).
Proof.
  intros Hsend Hfound Hnone%find_sorry_None. unfold check_proof.
  unfold mbind at 1. unfold M_bind at 1. unfold exchange. rewrite Hsend.
  unfold mbind at 1. unfold M_bind at 1. unfold lift at 1.
  rewrite Hfound. simpl. by rewrite Hnone.
Qed.

(** X10.  A load reply without a ["sorries"] key (the REPL found no sorry in
    the file) makes [_check_proof] raise [KeyError] instead of returning
    [None]; only the file load was submitted. *)
Theorem check_proof_no_sorries_key file_text line column proof s0 rep0 r1 :
  send_command (Cmd file_text) (repl s0) = (Ok rep0, r1) →
  sorries rep0 = None →
  check_proof send_command file_text line column proof s0
  = (Raise (KeyError "sorries"),
     {| repl := r1; exchanges := exchanges s0 ++ [Cmd file_text] |}).
Proof.
  intros Hsend Hfound. unfold check_proof.
  unfold mbind at 1. unfold M_bind at 1. unfold exchange. rewrite Hsend.
  unfold mbind at 1. unfold M_bind at 1. unfold lift at 1.
  by rewrite Hfound.
Qed.

(** X11.  An exception of the REPL while tactic [k] is applied is not
    caught: [_check_proof] raises it, after the file load and tactics
    [1..k] were submitted and none of the later ones. *)
Theorem check_proof_repl_failure file_text line column pre tactic post
    s0 rep0 r1 found sorry r_k ps_k rep_k e r' :
  send_command (Cmd file_text) (repl s0) = (Ok rep0, r1) →
  sorries rep0 = Some found →
  find_sorry line column found = Some sorry →
  steps send_command r1 (sorry_proofState sorry) rep0 pre r_k ps_k rep_k →
  send_command (Tactic tactic ps_k) r_k = (Raise e, r') →
  ∃ handles,
    length handles = length pre + 1
    ∧ check_proof send_command file_text line column (pre ++ tactic :: post) s0
      = (Raise e,
         {| repl := r';
            exchanges := exchanges s0 ++ Cmd file_text
                         :: zip_with Tactic (pre ++ [tactic]) handles |}).
Proof.
  intros Hsend Hfound Hfind Hsteps Hk.
  destruct (apply_tactics_steps _ _ _ _ _ _ _ _ Hsteps)
    as (handles & Hlen & Hrun).
  exists (handles ++ [ps_k]). split; [rewrite length_app; simpl; lia|].
  rewrite (check_proof_located _ _ _ _ _ _ _ _ _ _ Hsend Hfound Hfind).
  unfold mbind at 1. unfold M_bind at 1. rewrite Hrun. simpl.
  unfold mbind at 1. unfold M_bind at 1. unfold exchange. simpl. rewrite Hk.
  rewrite zip_with_app by done. simpl. by rewrite <-!app_assoc.
Qed.

End verifier_more.

Lemma check_proof_accepted_inv_witness :
  let script := [load_reply [{| pos_line := 3; pos_column := 4;
                                sorry_proofState := 0 |}];
                 tactic_reply None (Some 1%Z) (Some [py "q"]);
                 tactic_reply None (Some 2%Z) (Some [])] in
  let outcome :=
    check_proof scripted (py "theorem t : p = q := sorry") 3 4
      [py "constructor"; py "exact hq"] {| repl := script; exchanges := [] |} in
  outcome.1 = Ok (Some (text ["constructor"; "exact hq"]))
  ∧ length (exchanges outcome.2) = 3.
Proof.
  intros script outcome.
  destruct (check_proof_accepted_inv scripted
              (py "theorem t : p = q := sorry") 3 4
              [py "constructor"; py "exact hq"]
              {| repl := script; exchanges := [] |}
              (text ["constructor"; "exact hq"]) outcome.2)
    as (_ & Hlen & _); [reflexivity|].
  split; [reflexivity|exact Hlen].
Defined.

Lemma check_proof_not_found_witness :
  check_proof scripted (py "example : 2 + 2 = 4 := sorry") 3 4 [py "rfl"]
    {| repl := [load_reply [{| pos_line := 3; pos_column := 8;
                               sorry_proofState := 0 |}];
                tactic_reply None (Some 1%Z) (Some [])];
       exchanges := [] |}
  = (Ok None,
     {| repl := [tactic_reply None (Some 1%Z) (Some [])];
        exchanges := [Cmd (py "example : 2 + 2 = 4 := sorry")] |}).
Proof.
  eapply (check_proof_not_found scripted).
  - reflexivity.
  - reflexivity.
  - repeat constructor. simpl. lia.
Defined.

Lemma check_proof_no_sorries_key_witness :
  check_proof scripted (py "example : 2 + 2 = 4 := rfl") 1 1 [py "rfl"]
    {| repl := [{| sorries := None; messages := None; proofState := None;
                   goals := None |}];
       exchanges := [] |}
  = (Raise (KeyError "sorries"),
     {| repl := []; exchanges := [Cmd (py "example : 2 + 2 = 4 := rfl")] |}).
Proof. eapply (check_proof_no_sorries_key scripted); reflexivity. Defined.

Lemma check_proof_repl_failure_witness :
  let script := [load_reply [{| pos_line := 3; pos_column := 4;
                                sorry_proofState := 0 |}];
                 tactic_reply None (Some 1%Z) (Some [py "q"])] in
  ∃ handles,
    length handles = 2
    ∧ check_proof scripted (py "theorem t : p = q := sorry") 3 4
        [py "constructor"; py "exact hq"; py "done"]
        {| repl := script; exchanges := [] |}
      = (Raise (ExternalError "repl"),
         {| repl := [];
            exchanges := Cmd (py "theorem t : p = q := sorry")
                         :: zip_with Tactic [py "constructor"; py "exact hq"]
                                     handles |}).
Proof.
  intros script.
  eapply (check_proof_repl_failure scripted _ 3 4 [py "constructor"]
            (py "exact hq") [py "done"] {| repl := script; exchanges := [] |}).
  - reflexivity.
  - reflexivity.
  - reflexivity.
  - eapply steps_cons; [reflexivity..|]. apply steps_nil.
  - reflexivity.
Defined.

(** ** More on the orchestrator: idle runs, completed runs, failures *)

Section for_each_more.

Context {S A B : Type} (f : A → B → M S B).

Lemma for_each_idle l b s :
  (∀ x b s, x ∈ l → f x b s = (Ok b, s)) → for_each f l b s = (Ok b, s).
Proof.
  induction l as [|x l IH]; intros Hidle; simpl; [done|].
  unfold mbind, M_bind. rewrite Hidle by left.
  apply IH. intros y b0 s0 Hy. apply Hidle. by right.
Qed.

(** A loop that returns, with [g x] what iteration [x] contributes to a
    list kept for the invariant. *)
Lemma for_each_Ok_acc {C} (g : A → list C) (I : list C → B → S → Prop) l :
  (∀ x acc b s b' s', x ∈ l → I acc b s → f x b s = (Ok b', s') →
     I (acc ++ g x) b' s') →
  ∀ acc b s b' s', I acc b s → for_each f l b s = (Ok b', s') →
    I (acc ++ (l ≫= g)) b' s'.
Proof.
  induction l as [|x l IH]; intros Hbody acc b s b' s' HI.
  { intros [= <- <-]. by rewrite app_nil_r. }
  rewrite bind_cons, app_assoc. cbn [for_each].
  unfold mbind at 1. unfold M_bind at 1.
  destruct (f x b s) as [[b1|e] s1] eqn:Hx; [|done]. intros Hrest.
  eapply IH; [|by eapply Hbody; [left|..]|done].
  intros y acc0 b0 s0 b0' s0' Hy. apply Hbody. by right.
Qed.

End for_each_more.

Section orchestrator_more.

Context {X R : Type}.
Variable invoke : str → X → result model_response * X.
Variable prepare : str → str → str → str → X → result R * X.
Variable read_text : str → X → result str.
Variable send_command : command → R → result reply * R.
Variable format_prompt : str → str → Z → Z → str.

Implicit Types (st : state X R) (s : sorry_record)
  (llm : gmap str (option str)).

Lemma filter_none {A} (P : A → Prop) `{∀ x, Decision (P x)} (l : list A) :
  Forall (λ x, ¬ P x) l → filter P l = [].
Proof.
  induction 1 as [|x l Hx _ IH]; [done|].
  by rewrite filter_cons, decide_False.
Qed.

Lemma filter_bind {A B} (P : B → Prop) `{∀ x, Decision (P x)}
    (g : A → list B) (l : list A) :
  filter P (l ≫= g) = l ≫= (λ x, filter P (g x)).
Proof.
  induction l as [|x l IH]; [done|].
  by rewrite !bind_cons, filter_app, IH.
Qed.

Lemma bind_singleton {A} (l : list A) : l ≫= (λ x, [x]) = l.
Proof. induction l as [|x l IH]; [done|]. by rewrite bind_cons, IH. Qed.

(** X12.  A database without any ["Prop"] sorry is a no-op: no repository
    is prepared, the generator is not called, the output file is not
    written; the client is left exactly as it was. *)
Theorem solve_sorry_db_idle repos st :
  Forall (λ s, ¬ is_prop s) (all_sorries repos) →
  solve_sorry_db invoke prepare read_text send_command format_prompt repos st
  = (Ok (), st).
Proof.
  intros Hnone. unfold solve_sorry_db, mbind, M_bind.
  rewrite for_each_idle; [done|].
  intros r llm st1 Hr. unfold solve_repo. apply for_each_idle.
  intros c llm' st2 Hc. unfold solve_commit.
  rewrite decide_True; [done|]. apply filter_none, Forall_forall.
  intros s Hs. rewrite Forall_forall in Hnone.
  by eapply Hnone, elem_of_all_sorries.
Qed.

Lemma solve_sorry_Ok_calls s st outcome st' :
  solve_sorry invoke read_text send_command format_prompt s st
  = (Ok outcome, st') →
  generator_calls st' = generator_calls st ++ [s]
  ∧ out_json st' = out_json st.
Proof.
  unfold solve_sorry, mbind, M_bind.
  destruct (read_text (loc_file s) (world st)) as [file_text|e]; [|done].
  unfold note_generator_call, invoke_model. simpl.
  destruct (invoke _ (world st)) as [[response|e] w]; [|done]. simpl.
  unfold lift. destruct (split_proof (content response)) as [proof|e]; [|done].
  unfold with_repl. simpl.
  destruct (client_repl st) as [session|]; [|done].
  destruct (check_proof _ _ _ _ _ _) as [outcome' session'].
  by intros [= -> <-].
Qed.

Lemma attempt_attempted_all st0 s attempted llm st llm' st' :
  attempted_all st0 attempted llm st →
  attempt invoke read_text send_command format_prompt s llm st = (Ok llm', st') →
  attempted_all st0 (attempted ++ [s]) llm' st'.
Proof.
  intros (Hcalls & Hjson & Hkeys). unfold attempt, mbind, M_bind.
  destruct (solve_sorry _ _ _ _ _ _) as [[outcome|e] st1] eqn:Hsolve; [|done].
  apply solve_sorry_Ok_calls in Hsolve as [Hcalls1 _].
  simpl. intros [= <- <-]. split_and!; simpl.
  - by rewrite Hcalls1, Hcalls, <-app_assoc.
  - done.
  - intros s' [Hs'| ->%list_elem_of_singleton]%elem_of_app.
    + destruct (decide (uuid s = uuid s')) as [->|Hne].
      * rewrite lookup_insert_eq. by eauto.
      * rewrite lookup_insert_ne by done. by apply Hkeys.
    + rewrite lookup_insert_eq. by eauto.
Qed.

Lemma solve_commit_attempted_all st0 url c attempted llm st llm' st' :
  attempted_all st0 attempted llm st →
  solve_commit invoke prepare read_text send_command format_prompt url c llm st
  = (Ok llm', st') →
  attempted_all st0 (attempted ++ filter is_prop (commit_sorries c)) llm' st'.
Proof.
  intros Hinv. unfold solve_commit. case_decide as Hnone.
  { rewrite Hnone, app_nil_r. by intros [= <- <-]. }
  pose proof (setup_repo_effect prepare url (branch c) (sha c)
                (lean_version c) st) as Hsetup.
  unfold mbind at 1. unfold M_bind at 1.
  destruct (setup_repo _ _ _ _ _ _) as [[[]|e] st1]; [|done].
  destruct Hsetup as [Hj Hg]. intros Hrun.
  rewrite <-(bind_singleton (filter is_prop (commit_sorries c))) at 1.
  eapply (for_each_Ok_acc _ (λ s, [s]) (attempted_all st0)); [| |exact Hrun].
  - intros s acc b s1 b' s1' _. apply attempt_attempted_all.
  - destruct Hinv as (Hcalls & Hjson & Hkeys).
    split_and!; [by rewrite Hg|by rewrite Hj|done].
Qed.

(** X13.  A run of [solve_sorry_db] that returns has called the generator
    exactly once for each ["Prop"] sorry of the database, in database order,
    and the output file holds an entry for every one of them. *)
Theorem completed_run_covers_prop_sorries repos st0 st' :
  solve_sorry_db invoke prepare read_text send_command format_prompt repos st0
  = (Ok (), st') →
  generator_calls st'
  = generator_calls st0 ++ filter is_prop (all_sorries repos)
  ∧ ∀ s, s ∈ all_sorries repos → is_prop s →
         ∃ m, out_json st' = Some m ∧ is_Some (m !! uuid s).
Proof.
  unfold solve_sorry_db. unfold mbind at 1. unfold M_bind at 1.
  destruct (for_each _ repos ∅ st0) as [[llm|e] st1] eqn:Hrun; [|done].
  intros [= <-].
  assert (attempted_all st0 (filter is_prop (all_sorries repos)) llm st1)
    as (Hcalls & Hjson & Hkeys).
  { unfold all_sorries. rewrite filter_bind.
    rewrite <-(app_nil_l (repos ≫= _)).
    eapply (for_each_Ok_acc _ _ (attempted_all st0)); [| |exact Hrun].
    - intros r acc b s b' s' _ Hinv Hrepo. unfold solve_repo in Hrepo.
      rewrite filter_bind.
      eapply (for_each_Ok_acc _ _ (attempted_all st0)); [|done|exact Hrepo].
      intros c acc' b0 s0 b0' s0' _. apply solve_commit_attempted_all.
    - split_and!; [by rewrite app_nil_r|done|].
      intros s Hs. by apply elem_of_nil in Hs. }
  split; [done|]. intros s Hs Hprop.
  assert (s ∈ filter is_prop (all_sorries repos)) as Hin
    by by apply list_elem_of_filter.
  exists llm. split; [|by apply Hkeys].
  apply Hjson. intros Hnil. rewrite Hnil in Hin. by apply elem_of_nil in Hin.
Qed.

(** X14.  Nothing in [solve_sorry_db] catches an exception of
    [_solve_sorry], whatever its origin (file read, generator, the
    splitter's [IndexError], the verifier's [KeyError], the REPL): the run
    ends with that exception at the first obligation that raises. *)
Theorem solve_sorry_failure_aborts_run
    repos_done url commits_done c commits_left repos_left
    sorries_done sorry sorries_left
    (st0 st1 st2 st3 st4 st' : state X R) llm1 llm2 llm3 e :
  filter is_prop (commit_sorries c) = sorries_done ++ sorry :: sorries_left →
  for_each (solve_repo invoke prepare read_text send_command format_prompt)
    repos_done ∅ st0 = (Ok llm1, st1) →
  for_each (solve_commit invoke prepare read_text send_command format_prompt url)
    commits_done llm1 st1 = (Ok llm2, st2) →
  setup_repo prepare url (branch c) (sha c) (lean_version c) st2
  = (Ok (), st3) →
  for_each (attempt invoke read_text send_command format_prompt)
    sorries_done llm2 st3 = (Ok llm3, st4) →
  solve_sorry invoke read_text send_command format_prompt sorry st4
  = (Raise e, st') →
  solve_sorry_db invoke prepare read_text send_command format_prompt
    (repos_done
     ++ {| remote_url := url; commits := commits_done ++ c :: commits_left |}
     :: repos_left) st0
  = (Raise e, st').
Proof.
  intros Hsorries Hrepos Hcommits Hsetup Hdone Hsolve.
  pose proof (attempt_raises invoke read_text send_command format_prompt
                sorry llm3 st4 e st' Hsolve) as Hattempt.
  pose proof (for_each_raise _ _ _ sorries_left _ _ _ _ _ _ Hdone Hattempt)
    as Hloop.
  assert (solve_commit invoke prepare read_text send_command format_prompt
            url c llm2 st2 = (Raise e, st')) as Hcommit.
  { unfold solve_commit. rewrite Hsorries.
    rewrite decide_False by (by destruct sorries_done).
    unfold mbind, M_bind. by rewrite Hsetup. }
  pose proof (for_each_raise _ _ _ commits_left _ _ _ _ _ _ Hcommits Hcommit)
    as Hrepo.
  unfold solve_sorry_db, mbind, M_bind.
  by rewrite (for_each_raise _ repos_done
                {| remote_url := url;
                   commits := commits_done ++ c :: commits_left |}
                repos_left ∅ st0 llm1 st1 e st' Hrepos Hrepo).
Qed.







End orchestrator_more.


(** The counts are added as reported: a response that reports a negative
    input count and a fractional output count takes [self.token_usage] from
    [[10, 10]] to [[7, 12.5]]. *)
Lemma invoke_model_adds_reported_counts :
  let response :=
    {| content := py "rfl"; input_tokens := -3; output_tokens := 2.5 |} in
  let st0 := set_token_usage (10%Q, 10%Q) (Script.initial [Ok response]) in
  let outcome := invoke_model Script.invoke (py "prompt") st0 in
  outcome.1 = Ok (py "rfl")
  ∧ token_usage outcome.2 = (7%Q, 12.5%Q)
  ∧ ¬ usage_le st0 outcome.2.
Proof.
  intros response st0 outcome. split_and!; [reflexivity..|].
  intros [Hin _]. revert Hin. by vm_compute.
Qed.

Lemma solve_sorry_db_idle_witness :
  Example.run [Ok Example.rfl_response] [Example.s3]
  = (Ok (), Script.initial [Ok Example.rfl_response]).
Proof.
  apply (solve_sorry_db_idle Script.invoke
           (Script.prepare Example.repl_script)
           (Script.read_text Example.file_text) scripted Script.format_prompt
           (Script.one_commit [Example.s3])).
  repeat constructor. vm_compute. intros [=].
Defined.

Lemma completed_run_covers_prop_sorries_witness :
  let outcome := Example.run [Ok Example.rfl_response]
                             [Example.s3; Example.s1] in
  generator_calls outcome.2 = [Example.s1]
  ∧ ∃ m, out_json outcome.2 = Some m ∧ is_Some (m !! uuid Example.s1).
Proof.
  intros outcome.
  destruct (completed_run_covers_prop_sorries Script.invoke
              (Script.prepare Example.repl_script)
              (Script.read_text Example.file_text) scripted
              Script.format_prompt
              (Script.one_commit [Example.s3; Example.s1])
              (Script.initial [Ok Example.rfl_response]) outcome.2)
    as [Hcalls Hentries]; [reflexivity|].
  split; [exact Hcalls|].
  apply Hentries; [|reflexivity].
  apply list_elem_of_In. simpl. auto.
Defined.

Lemma solve_sorry_failure_aborts_run_witness :
  let by_response :=
    {| content := py "by"; input_tokens := 100; output_tokens := 1 |} in
  let outcome := Example.run [Ok Example.rfl_response; Ok by_response;
                              Ok Example.rfl_response]
                             [Example.s1; Example.s2; Example.s3] in
  outcome.1 = Raise IndexError
  ∧ generator_calls outcome.2 = [Example.s1; Example.s2]
  ∧ world outcome.2 = [Ok Example.rfl_response].
Proof.
  intros by_response outcome.
  set (world0 := [Ok Example.rfl_response; Ok by_response;
                  Ok Example.rfl_response]).
  set (st0 := Script.initial world0).
  set (st3 := (setup_repo (Script.prepare Example.repl_script)
                 (py "https://example.org/r.git") (py "main") (py "abc")
                 (py "v4.16.0") st0).2).
  set (done1 := for_each (attempt Script.invoke
                            (Script.read_text Example.file_text)
                            scripted Script.format_prompt)
                  [Example.s1] ∅ st3).
  set (failed := solve_sorry Script.invoke (Script.read_text Example.file_text)
                   scripted Script.format_prompt Example.s2 done1.2).
  assert (outcome = (Raise IndexError, failed.2)) as ->.
  { apply (solve_sorry_failure_aborts_run Script.invoke
             (Script.prepare Example.repl_script)
             (Script.read_text Example.file_text) scripted
             Script.format_prompt
             [] (py "https://example.org/r.git") []
             {| branch := py "main"; sha := py "abc";
                lean_version := py "v4.16.0";
                commit_sorries := [Example.s1; Example.s2; Example.s3] |}
             [] [] [Example.s1] Example.s2 []
             st0 st0 st0 st3 done1.2 failed.2 ∅ ∅
             {[ py "u1" := Some (py "rfl") ]}).
    - reflexivity.
    - reflexivity.
    - reflexivity.
    - reflexivity.
    - vm_compute. reflexivity.
    - vm_compute. reflexivity. }
  vm_compute. by split_and!.
Defined.

(** ** Discovery of sorries: which lines are reported *)

Section find_sorries_claims.

Import FindSorries.

Implicit Types (s cur word line content : str) (lines : list str)
  (acc : list nat).

Lemma scan_lines_step i line rest acc :
  scan_lines i (line :: rest) acc
  = scan_lines (S i) rest
      (if reports_sorry line then acc ++ [i + 1] else acc).
Proof.
  unfold reports_sorry. simpl.
  destruct (startswith (py "--") (strip line) || startswith (py "/--") (strip line));
    [done|].
  simpl. by destruct (bool_decide _).
Qed.

Lemma scan_lines_elem_of i lines acc n :
  n ∈ scan_lines i lines acc
  ↔ n ∈ acc
    ∨ ∃ k line, lines !! k = Some line ∧ reports_sorry line = true
                ∧ n = i + k + 1.
Proof.
  revert i acc. induction lines as [|line rest IH]; intros i acc.
  { simpl. split; [by left|]. by intros [?|(k & l & ? & _)]. }
  rewrite scan_lines_step, IH. split.
  - intros [Hacc|(k & l & Hk & Hl & ->)].
    + destruct (reports_sorry line) eqn:Hline; [|by left].
      apply elem_of_app in Hacc as [?| ->%list_elem_of_singleton]; [by left|].
      right. exists 0, line. split_and!; [done..|lia].
    + right. exists (S k), l. split_and!; [done..|lia].
  - intros [Hacc|(k & l & Hk & Hl & ->)].
    + left. destruct (reports_sorry line); [|done].
      apply elem_of_app. by left.
    + destruct k as [|k]; simpl in Hk.
      * injection Hk as ->. rewrite Hl. left. apply elem_of_app. right.
        apply list_elem_of_singleton. lia.
      * right. exists k, l. split_and!; [done..|lia].
Qed.

Lemma scan_lines_sorted i lines acc :
  StronglySorted lt acc → Forall (λ n, n ≤ i) acc →
  StronglySorted lt (scan_lines i lines acc).
Proof.
  revert i acc. induction lines as [|line rest IH]; intros i acc Hsorted Hle.
  { done. }
  rewrite scan_lines_step. destruct (reports_sorry line).
  - apply IH.
    + apply StronglySorted_app_2; [|done|repeat constructor].
      intros x y Hx ->%list_elem_of_singleton.
      rewrite Forall_forall in Hle. specialize (Hle x Hx). lia.
    + apply Forall_app. split; [|constructor; [lia|constructor]].
      eapply Forall_impl; [done|]. simpl. lia.
  - apply IH; [done|]. eapply Forall_impl; [done|]. simpl. lia.
Qed.

(** X16.  [process_file_content] returns exactly the 1-based numbers of the
    lines (in the sense of [splitlines]) that, stripped, are not line
    comments ([--] or [/--]) and have [sorry] among their words. *)
Theorem process_file_content_spec content n :
  n ∈ process_file_content content
  ↔ 1 ≤ n
    ∧ ∃ line, splitlines content !! (n - 1) = Some line
              ∧ reports_sorry line = true.
Proof.
  unfold process_file_content. rewrite scan_lines_elem_of. split.
  - intros [Hnil|(k & line & Hk & Hline & ->)]; [by apply elem_of_nil in Hnil|].
    split; [lia|]. exists line. split; [|done].
    by replace (0 + k + 1 - 1) with k by lia.
  - intros [Hn (line & Hk & Hline)]. right. exists (n - 1), line.
    split_and!; [done..|lia].
Qed.

(** X17.  The line numbers returned are strictly increasing (no line is
    reported twice) and lie between 1 and the number of lines. *)
Theorem process_file_content_sorted content :
  StronglySorted lt (process_file_content content)
  ∧ Forall (λ n, 1 ≤ n ≤ length (splitlines content))
           (process_file_content content).
Proof.
  split.
  - apply scan_lines_sorted; constructor.
  - apply Forall_forall. intros n [Hn (line & Hk & _)]%process_file_content_spec.
    apply lookup_lt_Some in Hk. lia.
Qed.

Lemma split_from_elem_of_1 word cur s :
  word ∈ split_from cur s → delimited word (cur ++ s).
Proof.
  revert cur. induction s as [|c s IH]; intros cur; simpl.
  { case_decide; [by intros ?%elem_of_nil|].
    intros ->%list_elem_of_singleton. exists [], [].
    by rewrite app_nil_r. }
  destruct (isspace c) eqn:Hc.
  - assert (word ∈ split_from [] s → delimited word (cur ++ c :: s)) as Hrest.
    { intros (before & after & Heq & Hb & Ha)%IH. simpl in Heq. subst s.
      exists (cur ++ c :: before), after. split_and!; [|..|done].
      - by rewrite <-app_assoc.
      - intros x. rewrite last_app. simpl.
        destruct before as [|b before] using rev_ind.
        + simpl. by intros [= <-].
        + rewrite last_cons, last_snoc. intros [= <-]. apply Hb.
          by rewrite last_snoc. }
    case_decide; [done|].
    intros [-> |Hin]%elem_of_cons; [|by apply Hrest].
    exists [], (c :: s). split_and!; [done..|]. by intros x [= <-].
  - intros Hin%IH. by rewrite <-app_assoc in Hin.
Qed.

Lemma no_space_elem_of x (l : str) :
  Forall (λ c, isspace c = false) l → x ∈ l → isspace x = true → False.
Proof.
  intros Hl Hx Hsp. rewrite Forall_forall in Hl. specialize (Hl x Hx).
  congruence.
Qed.

Lemma split_from_elem_of_2 word cur s :
  word ≠ [] →
  Forall (λ c, isspace c = false) word →
  Forall (λ c, isspace c = false) cur →
  delimited word (cur ++ s) → word ∈ split_from cur s.
Proof.
  intros Hne Hword. revert cur.
  induction s as [|c s IH]; intros cur Hcur (before & after & Heq & Hb & Ha).
  - rewrite app_nil_r in Heq. subst cur. simpl.
    destruct before as [|b before _] using rev_ind.
    + destruct after as [|a after].
      * rewrite app_nil_r. simpl. rewrite decide_False by done. by left.
      * exfalso. apply (no_space_elem_of a _ Hcur); [|by apply Ha].
        rewrite !elem_of_app. right. right. by left.
    + exfalso. apply (no_space_elem_of b _ Hcur).
      * rewrite !elem_of_app. left. right. by left.
      * apply Hb. by rewrite last_snoc.
  - simpl. destruct (isspace c) eqn:Hc.
    + apply app_eq_inv in Heq as [(k & Hcur_eq & Heq)|(k & Hbefore & Heq)].
      * (* the word starts within [cur]: it is [cur] *)
        assert (before = []) as ->.
        { destruct before as [|b before _] using rev_ind; [done|].
          exfalso. apply (no_space_elem_of b _ Hcur).
          - rewrite Hcur_eq, !elem_of_app. left. right. by left.
          - apply Hb. by rewrite last_snoc. }
        simpl in Hcur_eq. subst k.
        assert (word = cur) as ->.
        { apply app_eq_inv in Heq as [(k & Hw & Heq)|(k & Hc' & Heq)].
          - destruct k as [|x k]; [by rewrite app_nil_r in Hw|].
            exfalso. injection Heq as <- _.
            apply (no_space_elem_of c _ Hword); [|done].
            rewrite Hw, elem_of_app. right. by left.
          - destruct k as [|x k]; [by rewrite app_nil_r in Hc'|].
            exfalso. apply (no_space_elem_of x _ Hcur).
            + rewrite Hc', elem_of_app. right. by left.
            + apply Ha. by rewrite Heq. }
        rewrite decide_False by done. by left.
      * (* the word starts after the white space [c] *)
        destruct k as [|x k].
        { exfalso. simpl in Heq. destruct word as [|w word]; [done|].
          injection Heq as <- _. by inversion Hword; congruence. }
        injection Heq as <- ->.
        assert (word ∈ split_from [] (k ++ word ++ after)) as Hin.
        { apply IH; [constructor|]. exists k, after. split_and!; [done| |done].
          intros y Hy. apply Hb. rewrite Hbefore, last_app. simpl.
          destruct k as [|z k]; [done|]. by rewrite last_cons, Hy. }
        case_decide; [done|]. by right.
    + apply IH.
      * apply Forall_app. split; [done|]. by repeat constructor.
      * exists before, after. by rewrite <-app_assoc.
Qed.

(** X18.  What "a word of the line" means: a non-empty string without white
    space is among [s.split()] exactly when it occurs in [s] with white
    space or an end of [s] on each side.  So [sorry] glued to other
    characters, as in [sorry)] or [(sorry], is not found. *)
Theorem split_elem_of_delimited word s :
  word ≠ [] → Forall (λ c, isspace c = false) word →
  word ∈ split s ↔ delimited word s.
Proof.
  intros Hne Hword. unfold split. split.
  - apply (split_from_elem_of_1 word []).
  - by apply (split_from_elem_of_2 word []).
Qed.

End find_sorries_claims.

Lemma split_elem_of_delimited_witness :
  py "sorry" ∈ FindSorries.split (py "  exact sorry  -- todo")
  ∧ py "sorry" ∉ FindSorries.split (py "  exact (sorry)").
Proof.
  assert (py "sorry" ≠ []) as Hne by done.
  assert (Forall (λ c, isspace c = false) (py "sorry")) as Hword
    by (by repeat constructor).
  split.
  - apply (split_elem_of_delimited (py "sorry") _ Hne Hword).
    exists (py "  exact "), (py "  -- todo"). split_and!; [done|..].
    + by intros c [= <-].
    + by intros c [= <-].
  - by apply (bool_decide_unpack _).
Defined.

(** ** Discovery of sorries in a repository *)

Section discovery_claims.

Import Discovery.

Context {W : Type}.
Variable get_recent_commits :
  str → W → result (list (str * branch_entry)) * W.
Variable get_commit_files : str → str → W → result (list (option str)) * W.
Variable list_of_set : gset str → list str.
Variable get_file_content_at_ref :
  str → str → str → W → result (option str) * W.
Variable get_line_blame_info :
  str → str → nat → W → result (option blame_info) * W.
Variable before_cutoff : str → result bool.

Lemma try_except_invariant {S} (body : M S ()) (P : S → Prop) s :
  match body s with (Ok _, s') => P s' | (Raise _, s') => P s' end →
  match try_except body s with
  | (Ok _, s') => P s'
  | (Raise _, _) => False
  end.
Proof. unfold try_except. by destruct (body s) as [[[]|e] s']. Qed.

(** A loop whose body never raises returns, with the invariant. *)
Lemma for_each_total {S A B} (f : A → B → M S B) (I : B → S → Prop) l :
  (∀ x b s, x ∈ l → I b s →
     match f x b s with (Ok b', s') => I b' s' | (Raise _, _) => False end) →
  ∀ b s, I b s →
    ∃ b' s', for_each f l b s = (Ok b', s') ∧ I b' s'.
Proof.
  intros Hbody b s HI.
  pose proof (for_each_invariant f I (λ _, False) l Hbody b s HI) as Hrun.
  destruct (for_each f l b s) as [[b'|e] s']; [by eauto|done].
Qed.

Lemma dict_set_elem_of {V} key (v : V) d k v' :
  (k, v') ∈ dict_set key v d → (k, v') = (key, v) ∨ (k, v') ∈ d.
Proof.
  induction d as [|[k0 v0] d IH]; simpl.
  { intros ->%list_elem_of_singleton. by left. }
  case_decide as Hk.
  - intros [-> | Hin]%elem_of_cons; [left; by subst|right; by right].
  - intros [-> | Hin]%elem_of_cons; [right; by left|].
    destruct (IH Hin) as [?|?]; [by left|right; by right].
Qed.

(** All files collected for a branch are [.lean] files. *)
Lemma add_commits_lean repo shas w files :
  (∀ f, f ∈ files → endswith (py ".lean") f = true) →
  ∃ w' files',
    for_each (add_commit get_commit_files repo) shas () (w, files)
    = (Ok (), (w', files'))
    ∧ ∀ f, f ∈ files' → endswith (py ".lean") f = true.
Proof.
  intros Hfiles.
  destruct (for_each_total (add_commit get_commit_files repo)
              (λ _ st, ∀ f, f ∈ st.2 → endswith (py ".lean") f = true)
              shas) with (b := ()) (s := (w, files))
    as ([] & [w' files'] & Hrun & Hinv); [|done|by eauto].
  intros sha [] [w1 files1] _ Hinv. unfold add_commit.
  apply (try_except_invariant _
           (λ st, ∀ f, f ∈ st.2 → endswith (py ".lean") f = true)).
  unfold mbind, M_bind. simpl.
  destruct (get_commit_files repo sha w1) as [[infos|e] w2]; [|done].
  apply (for_each_invariant add_file
           (λ _ st, ∀ f, f ∈ st.2 → endswith (py ".lean") f = true)
           (λ st, ∀ f, f ∈ st.2 → endswith (py ".lean") f = true));
    [|done].
  intros [filename|] [] [w3 files3] _ Hinv3; unfold add_file; simpl; [|done].
  destruct (endswith (py ".lean") filename) eqn:Hlean; simpl; [|done].
  intros f [->%elem_of_singleton|?]%elem_of_union; [done|by apply Hinv3].
Qed.

Lemma get_affected_files_good repo branch_commits w :
  (∀ files, list_of_set files ≡ₚ elements files) →
  ∃ branch_files w',
    get_affected_files get_commit_files list_of_set repo branch_commits w
    = (Ok branch_files, w')
    ∧ ∀ branch files, (branch, files) ∈ branch_files →
        branch ∈ branch_commits.*1
        ∧ files ≠ [] ∧ NoDup files
        ∧ Forall (λ f, endswith (py ".lean") f = true) files.
Proof.
  intros Hlist. unfold get_affected_files.
  set (good := λ (d : list (str * list str)),
         ∀ branch files, (branch, files) ∈ d →
           branch ∈ branch_commits.*1
           ∧ files ≠ [] ∧ NoDup files
           ∧ Forall (λ f, endswith (py ".lean") f = true) files).
  destruct (for_each_total (add_branch get_commit_files list_of_set repo)
              (λ d _, good d) branch_commits) with (b := @nil (str * list str))
              (s := w)
    as (d & w' & Hrun & Hgood); [| |by eauto].
  - intros [branch entry] d w1 Hitem Hd. unfold add_branch. simpl.
    destruct (add_commits_lean repo (commits entry) w1 ∅)
      as (w2 & files & -> & Hlean); [by intros f ?%not_elem_of_empty|].
    case_decide as Hempty; [done|].
    intros b fs [[= -> ->]|Hin]%dict_set_elem_of; [|by apply Hd].
    split_and!.
    + apply list_elem_of_fmap. by exists (branch, entry).
    + intros Hnil. apply Hempty, leibniz_equiv, elements_empty_inv.
      pose proof (Hlist files) as Hperm. rewrite Hnil in Hperm.
      by apply Permutation_nil_l in Hperm.
    + rewrite (Hlist files). apply NoDup_elements.
    + apply Forall_forall. intros f Hf. apply Hlean.
      rewrite (Hlist files) in Hf. by apply elem_of_elements in Hf.
  - by intros b fs ?%elem_of_nil.
Qed.

(** X19.  [get_affected_files] never raises, whatever the commit requests
    do; every branch it lists is one of the branches it was given and has a
    non-empty list of files, without duplicates, all of them [.lean]
    files. *)
Theorem get_affected_files_lean_only repo branch_commits w :
  (∀ files, list_of_set files ≡ₚ elements files) →
  ∃ branch_files w',
    get_affected_files get_commit_files list_of_set repo branch_commits w
    = (Ok branch_files, w')
    ∧ ∀ branch files, (branch, files) ∈ branch_files →
        branch ∈ branch_commits.*1
        ∧ files ≠ [] ∧ NoDup files
        ∧ Forall (λ f, endswith (py ".lean") f = true) files.
Proof. apply get_affected_files_good. Qed.

Section sound.

Variable repo : str.
Variable branch_commits : list (str * branch_entry).

Lemma process_line_sound branch entry head_sha file_path content w1 w1'
    line_number st :
  dict_get branch branch_commits = Ok entry →
  head (commits entry) = Some head_sha →
  endswith (py ".lean") file_path = true →
  get_file_content_at_ref repo file_path head_sha w1 = (Ok (Some content), w1') →
  line_number ∈ FindSorries.process_file_content content →
  all_sound get_file_content_at_ref get_line_blame_info before_cutoff
    repo branch_commits st →
  all_sound get_file_content_at_ref get_line_blame_info before_cutoff
    repo branch_commits
    (process_line get_line_blame_info before_cutoff repo branch head_sha
       (head_date entry) file_path line_number () st).2.
Proof.
  intros Hentry Hhead Hlean Hcontent Hline Hst.
  unfold process_line, mbind, M_bind, on_session.
  destruct (get_line_blame_info repo file_path line_number (session st))
    as [[[info|]|e] w2] eqn:Hblame; [|done..].
  unfold lift. destruct (before_cutoff (date info)) as [[]|e] eqn:Hold;
    [done| |done].
  simpl. apply Forall_app. split; [done|]. constructor; [|done].
  unfold sound_report. simpl. split_and!; [done|done| |done| | |done].
  - by exists entry.
  - by exists w1, w1', content.
  - by exists (session st), w2.
Qed.

Lemma process_file_sound branch entry head_sha file_path st :
  dict_get branch branch_commits = Ok entry →
  head (commits entry) = Some head_sha →
  endswith (py ".lean") file_path = true →
  all_sound get_file_content_at_ref get_line_blame_info before_cutoff
    repo branch_commits st →
  match process_file get_file_content_at_ref get_line_blame_info
          before_cutoff repo branch head_sha (head_date entry) file_path () st
  with
  | (Ok _, st') =>
      all_sound get_file_content_at_ref get_line_blame_info before_cutoff
        repo branch_commits st'
  | (Raise _, _) => False
  end.
Proof.
  intros Hentry Hhead Hlean Hst. unfold process_file.
  set (sound := all_sound get_file_content_at_ref get_line_blame_info
                  before_cutoff repo branch_commits) in *.
  apply (try_except_invariant _ sound).
  unfold mbind, M_bind, on_session.
  destruct (get_file_content_at_ref repo file_path head_sha (session st))
    as [[[content|]|e] w1] eqn:Hcontent; [|done..].
  case_decide; [done|].
  apply (for_each_invariant _ (λ _ st', sound st') sound); [|done].
  intros line_number [] st1 Hline Hst1.
  pose proof (process_line_sound branch entry head_sha file_path content _ _
                line_number st1 Hentry Hhead Hlean Hcontent Hline Hst1) as H1.
  by destruct (process_line _ _ _ _ _ _ _ _ _ _) as [[[]|e] st2].
Qed.

Lemma process_branch_sound branch files st :
  Forall (λ f, endswith (py ".lean") f = true) files →
  all_sound get_file_content_at_ref get_line_blame_info before_cutoff
    repo branch_commits st →
  match process_branch get_file_content_at_ref get_line_blame_info
          before_cutoff repo branch_commits (branch, files) () st
  with
  | (Ok _, st') | (Raise _, st') =>
      all_sound get_file_content_at_ref get_line_blame_info before_cutoff
        repo branch_commits st'
  end.
Proof.
  intros Hfiles Hst. unfold process_branch, mbind, M_bind, lift. simpl.
  set (sound := all_sound get_file_content_at_ref get_line_blame_info
                  before_cutoff repo branch_commits) in *.
  destruct (dict_get branch branch_commits) as [entry|e] eqn:Hentry; [|done].
  destruct (commits entry) as [|head_sha shas] eqn:Hcommits; [done|].
  simpl.
  apply (for_each_invariant _ (λ _ st', sound st') sound); [|done].
  intros file_path [] st1 Hfile Hst1.
  rewrite Forall_forall in Hfiles.
  pose proof (process_file_sound branch entry head_sha file_path st1 Hentry)
    as H1.
  rewrite Hcommits in H1. specialize (H1 eq_refl (Hfiles _ Hfile) Hst1).
  by destruct (process_file _ _ _ _ _ _ _ _ _ _) as [[[]|e] st2].
Qed.

End sound.

(** X20.  Every element of the list [process_repository] returns is a
    sound report: it names the repository, an active branch and the newest
    commit of that branch; its file is a [.lean] file whose content at that
    commit was fetched and has a sorry at the reported line; its blame is
    what the blame request returned and is not older than the cut-off. *)
Theorem process_repository_sound repo w r :
  (∀ files, list_of_set files ≡ₚ elements files) →
  r ∈ (process_repository get_recent_commits get_commit_files list_of_set
         get_file_content_at_ref get_line_blame_info before_cutoff repo w).1 →
  ∃ branch_commits w',
    get_recent_commits repo w = (Ok branch_commits, w')
    ∧ sound_report get_file_content_at_ref get_line_blame_info before_cutoff
        repo branch_commits r.
Proof.
  intros Hlist. unfold process_repository, try_except.
  unfold mbind at 1. unfold M_bind at 1. unfold on_session at 1. simpl.
  destruct (get_recent_commits repo w) as [[branch_commits|e] w1] eqn:Hrecent;
    [|by intros ?%elem_of_nil].
  case_decide; [by intros ?%elem_of_nil|].
  unfold mbind at 1. unfold M_bind at 1. unfold on_session at 1. simpl.
  destruct (get_affected_files_good repo branch_commits w1 Hlist)
    as (branch_files & w2 & -> & Hfiles).
  case_decide; [by intros ?%elem_of_nil|].
  set (sound := all_sound get_file_content_at_ref get_line_blame_info
                  before_cutoff repo branch_commits).
  assert (∀ st0 : @run W, sound st0 →
            sound (for_each (process_branch get_file_content_at_ref
                               get_line_blame_info before_cutoff repo
                               branch_commits) branch_files () st0).2)
    as Hloop.
  { intros st0 Hst0.
    pose proof (for_each_invariant
      (process_branch get_file_content_at_ref get_line_blame_info
         before_cutoff repo branch_commits)
      (λ _ st, sound st) sound branch_files) as Hinv.
    specialize (Hinv) with (b := ()) (s := st0).
    destruct (for_each _ branch_files _ _) as [[[]|e] st']; simpl;
      apply Hinv; try done;
      intros [branch files] [] st1 Hitem Hst1;
      apply process_branch_sound; [|done| |done];
      by destruct (Hfiles _ _ Hitem) as (_ & _ & _ & ?). }
  specialize (Hloop {| session := w2; results := [] |} (Forall_nil_2 _)).
  intros Hr. exists branch_commits, w1. split; [done|].
  unfold sound, all_sound in Hloop. rewrite Forall_forall in Hloop.
  apply Hloop. by destruct (for_each _ branch_files _ _) as [[[]|e] st'].
Qed.

End discovery_claims.

Lemma get_affected_files_lean_only_witness :
  ∃ branch_files w',
    Discovery.get_affected_files DiscoveryExample.get_commit_files elements
      (py "owner/repo") DiscoveryExample.branch_commits ()
    = (Ok branch_files, w')
    ∧ ∀ branch files, (branch, files) ∈ branch_files →
        branch ∈ DiscoveryExample.branch_commits.*1
        ∧ files ≠ [] ∧ NoDup files
        ∧ Forall (λ f, Discovery.endswith (py ".lean") f = true) files.
Proof.
  apply (get_affected_files_lean_only DiscoveryExample.get_commit_files
           elements (py "owner/repo") DiscoveryExample.branch_commits ()).
  intros files. reflexivity.
Defined.

Lemma process_repository_sound_witness :
  (Discovery.process_repository DiscoveryExample.get_recent_commits
     DiscoveryExample.get_commit_files elements
     DiscoveryExample.get_file_content_at_ref
     DiscoveryExample.get_line_blame_info DiscoveryExample.before_cutoff
     (py "owner/repo") ()).1
  = [DiscoveryExample.report]
  ∧ ∃ branch_commits w',
      DiscoveryExample.get_recent_commits (py "owner/repo") ()
      = (Ok branch_commits, w')
      ∧ sound_report DiscoveryExample.get_file_content_at_ref
          DiscoveryExample.get_line_blame_info DiscoveryExample.before_cutoff
          (py "owner/repo") branch_commits DiscoveryExample.report.
Proof.
  assert ((Discovery.process_repository DiscoveryExample.get_recent_commits
             DiscoveryExample.get_commit_files elements
             DiscoveryExample.get_file_content_at_ref
             DiscoveryExample.get_line_blame_info
             DiscoveryExample.before_cutoff (py "owner/repo") ()).1
          = [DiscoveryExample.report]) as Hrun by (vm_compute; reflexivity).
  split; [exact Hrun|].
  apply (process_repository_sound DiscoveryExample.get_recent_commits
           DiscoveryExample.get_commit_files elements
           DiscoveryExample.get_file_content_at_ref
           DiscoveryExample.get_line_blame_info
           DiscoveryExample.before_cutoff (py "owner/repo") ()).
  - intros files. reflexivity.
  - rewrite Hrun. by left.
Defined.
